(** * go-job-orchestrator: the orchestration engine, embedded and verified

    A shallow embedding of the job orchestrator's core: the BoltDB-backed
    store and queue (storage/boltdb.go), the retry executor
    (orchestrator/task.go), the job state machine (orchestrator/job.go) and
    the scheduler and recovery procedures (orchestrator/orchestrator.go).

    Stateful Go code is written in a state monad over a [World] that holds
    the orchestrator's fields, the database buckets and the environment the
    code talks to (clock, store failures, the outside world of the task
    implementations), together with a trace of the observable events.

    - Records are stored by value: the JSON encoding of a record is
      identified with the record.
    - A call of [ExecuteJob] is run to its end on the world.  Goroutines
      are kept as a list of started goroutines; their interleaving is not
      modelled, and nothing below depends on it: the record of an execution
      is written by the [ExecuteJob] of that execution only.
    - Go's [int] and [time.Duration] are 64-bit; where the code computes
      with them the wrap-around is written out. *)

From Stdlib Require Import ZArith Lia Ascii DecimalString DecimalPos DecimalZ.
From stdpp Require Import base option list gmap strings sorting.

Local Open Scope Z_scope.

(** ** Go values *)

(** A Go [error]: [None] is [nil], [Some msg] an error whose [Error()] is
    [msg]. *)
Definition error : Type := option string.

(** A Go pair [(value, err)] in which exactly one side is meaningful. *)
Inductive result (A : Type) : Type :=
  | Ok (a : A)
  | Err (msg : string).
Arguments Ok {A} a.
Arguments Err {A} msg.

(** [%d] of [fmt]: decimal digits, with a minus sign when negative. *)
Definition fmt_d (z : Z) : string := NilZero.string_of_int (Z.to_int z).

(** Two's complement wrap-around of a 64-bit signed integer (Go's [int],
    [int64] and [time.Duration] on the 64-bit targets). *)
Definition wrap64 (z : Z) : Z := (z + 2 ^ 63) mod 2 ^ 64 - 2 ^ 63.

(** [x << n] on a 64-bit signed integer, for a shift count [0 <= n]. *)
Definition shl64 (x n : Z) : Z := wrap64 (Z.shiftl x n).

(** [a * b] on a 64-bit signed integer. *)
Definition mul64 (a b : Z) : Z := wrap64 (a * b).

(** [time.Second], in nanoseconds. *)
Definition Second : Z := 1000000000.

(** ** pkg/models *)

Inductive TaskStatus : Type :=
  | TaskStatusPending
  | TaskStatusRunning
  | TaskStatusCompleted
  | TaskStatusFailed.

Inductive JobStatus : Type :=
  | JobStatusQueued
  | JobStatusRunning
  | JobStatusCompleted
  | JobStatusFailed.

Global Instance TaskStatus_eq_dec : EqDecision TaskStatus.
Proof. solve_decision. Defined.

Global Instance JobStatus_eq_dec : EqDecision JobStatus.
Proof. solve_decision. Defined.

Record Task : Type := {
  Task_ID : string;
  Task_Name : string;
  MaxRetry : Z;
  FunctionName : string
}.

Record JobDefinition : Type := {
  JobDefinition_ID : string;
  JobDefinition_Name : string;
  Tasks : list Task
}.

Section Engine.

(** The input payload [map[string]interface{}] is handed to the task
    implementations unchanged and never inspected by the engine; [Ext] is
    the state of whatever the task implementations act upon. *)
Context {Data Ext : Type}.

(** [EndTime] is [None] for Go's zero [time.Time]; times are the
    [UnixNano] readings of the clock.  A [nil] [TaskStatuses] map is the
    empty map: the code only reads it, or replaces it by an empty map
    before the first write. *)
Record JobExecution : Type := {
  ID : string;
  DefinitionID : string;
  Status : JobStatus;
  StartTime : Z;
  EndTime : option Z;
  JobData : Data;
  TaskStatuses : gmap string TaskStatus
}.

Definition set_Status (s : JobStatus) (je : JobExecution) : JobExecution :=
  {| ID := ID je; DefinitionID := DefinitionID je; Status := s;
     StartTime := StartTime je; EndTime := EndTime je; JobData := JobData je;
     TaskStatuses := TaskStatuses je |}.

Definition set_EndTime (t : Z) (je : JobExecution) : JobExecution :=
  {| ID := ID je; DefinitionID := DefinitionID je; Status := Status je;
     StartTime := StartTime je; EndTime := Some t; JobData := JobData je;
     TaskStatuses := TaskStatuses je |}.

Definition set_TaskStatuses (ts : gmap string TaskStatus) (je : JobExecution)
  : JobExecution :=
  {| ID := ID je; DefinitionID := DefinitionID je; Status := Status je;
     StartTime := StartTime je; EndTime := EndTime je; JobData := JobData je;
     TaskStatuses := ts |}.

(** [je.TaskStatuses[id] = s] *)
Definition set_TaskStatus (id : string) (s : TaskStatus) (je : JobExecution)
  : JobExecution :=
  set_TaskStatuses (<[id := s]> (TaskStatuses je)) je.

(** ** context.Context *)

(** Cancellation is raised from outside the engine: whether [Done()] is
    closed is a function of the outside world at the moment of the poll. *)
Record Context : Type := {
  Done : Ext -> bool;
  ctx_Err : string
}.

(** [context.Background()] is never cancelled. *)
Definition Background : Context :=
  {| Done := fun _ => false; ctx_Err := "context canceled" |}.

(** ** internal/orchestrator: types *)

Definition TaskFunction : Type := Context -> Data -> Ext -> error * Ext.

(** What an observer of a run sees, in order. *)
Inductive Event : Type :=
  | EvInvoke (taskID : string)   (* a call of the function registered for taskID *)
  | EvSleep (d : Z)              (* time.Sleep(d), d in nanoseconds *)
  | EvLog (msg : string).        (* log.Printf *)

(** A goroutine started by the engine: [ExecuteJob(context.Background(), id)],
    followed by the release of a worker slot when [releases] is set. *)
Record Goroutine : Type := {
  g_executionID : string;
  g_releases : bool
}.

(** The three buckets of the database.  A bucket is a B+tree keyed by byte
    strings: lookups go by key, cursors and [ForEach] visit the keys in
    ascending byte order.  [NewBoltDB] creates the three buckets, so the
    [bucket == nil] branches of the methods are not taken. *)
Record BoltDB : Type := {
  job_definitions : gmap string JobDefinition;
  job_executions : gmap string JobExecution;
  queue : gset string
}.

Record World : Type := {
  (* Orchestrator *)
  db : BoltDB;
  workerPool : nat;              (* units currently in the channel *)
  ongoingJobs : gset string;
  taskFunctions : gmap string TaskFunction;
  maxConcurrent : nat;           (* capacity of workerPool *)
  stop : bool;                   (* a sender is waiting on the stop channel *)
  done : bool;                   (* the done channel is closed *)
  goroutines : list Goroutine;   (* started, in order *)
  (* environment *)
  ext : Ext;
  clock : nat -> Z;              (* successive readings of time.Now().UnixNano() *)
  ticks : nat;                   (* readings taken so far *)
  faults : list bool;            (* whether the next transactions fail *)
  (* observations *)
  trace : list Event;
  writes : list JobExecution     (* records committed to job_executions, in order *)
}.

(** Field updates of [World]. *)
Definition set_db (x : BoltDB) (w : World) : World :=
  {| db := x;
     workerPool := workerPool w;
     ongoingJobs := ongoingJobs w;
     taskFunctions := taskFunctions w;
     maxConcurrent := maxConcurrent w;
     stop := stop w;
     done := done w;
     goroutines := goroutines w;
     ext := ext w;
     clock := clock w;
     ticks := ticks w;
     faults := faults w;
     trace := trace w;
     writes := writes w |}.

Definition set_workerPool (x : nat) (w : World) : World :=
  {| db := db w;
     workerPool := x;
     ongoingJobs := ongoingJobs w;
     taskFunctions := taskFunctions w;
     maxConcurrent := maxConcurrent w;
     stop := stop w;
     done := done w;
     goroutines := goroutines w;
     ext := ext w;
     clock := clock w;
     ticks := ticks w;
     faults := faults w;
     trace := trace w;
     writes := writes w |}.

Definition set_ongoingJobs (x : gset string) (w : World) : World :=
  {| db := db w;
     workerPool := workerPool w;
     ongoingJobs := x;
     taskFunctions := taskFunctions w;
     maxConcurrent := maxConcurrent w;
     stop := stop w;
     done := done w;
     goroutines := goroutines w;
     ext := ext w;
     clock := clock w;
     ticks := ticks w;
     faults := faults w;
     trace := trace w;
     writes := writes w |}.

Definition set_taskFunctions (x : gmap string TaskFunction) (w : World) : World :=
  {| db := db w;
     workerPool := workerPool w;
     ongoingJobs := ongoingJobs w;
     taskFunctions := x;
     maxConcurrent := maxConcurrent w;
     stop := stop w;
     done := done w;
     goroutines := goroutines w;
     ext := ext w;
     clock := clock w;
     ticks := ticks w;
     faults := faults w;
     trace := trace w;
     writes := writes w |}.

Definition set_stop (x : bool) (w : World) : World :=
  {| db := db w;
     workerPool := workerPool w;
     ongoingJobs := ongoingJobs w;
     taskFunctions := taskFunctions w;
     maxConcurrent := maxConcurrent w;
     stop := x;
     done := done w;
     goroutines := goroutines w;
     ext := ext w;
     clock := clock w;
     ticks := ticks w;
     faults := faults w;
     trace := trace w;
     writes := writes w |}.

Definition set_done (x : bool) (w : World) : World :=
  {| db := db w;
     workerPool := workerPool w;
     ongoingJobs := ongoingJobs w;
     taskFunctions := taskFunctions w;
     maxConcurrent := maxConcurrent w;
     stop := stop w;
     done := x;
     goroutines := goroutines w;
     ext := ext w;
     clock := clock w;
     ticks := ticks w;
     faults := faults w;
     trace := trace w;
     writes := writes w |}.

Definition set_goroutines (x : list Goroutine) (w : World) : World :=
  {| db := db w;
     workerPool := workerPool w;
     ongoingJobs := ongoingJobs w;
     taskFunctions := taskFunctions w;
     maxConcurrent := maxConcurrent w;
     stop := stop w;
     done := done w;
     goroutines := x;
     ext := ext w;
     clock := clock w;
     ticks := ticks w;
     faults := faults w;
     trace := trace w;
     writes := writes w |}.

Definition set_ext (x : Ext) (w : World) : World :=
  {| db := db w;
     workerPool := workerPool w;
     ongoingJobs := ongoingJobs w;
     taskFunctions := taskFunctions w;
     maxConcurrent := maxConcurrent w;
     stop := stop w;
     done := done w;
     goroutines := goroutines w;
     ext := x;
     clock := clock w;
     ticks := ticks w;
     faults := faults w;
     trace := trace w;
     writes := writes w |}.

Definition set_ticks (x : nat) (w : World) : World :=
  {| db := db w;
     workerPool := workerPool w;
     ongoingJobs := ongoingJobs w;
     taskFunctions := taskFunctions w;
     maxConcurrent := maxConcurrent w;
     stop := stop w;
     done := done w;
     goroutines := goroutines w;
     ext := ext w;
     clock := clock w;
     ticks := x;
     faults := faults w;
     trace := trace w;
     writes := writes w |}.

Definition set_faults (x : list bool) (w : World) : World :=
  {| db := db w;
     workerPool := workerPool w;
     ongoingJobs := ongoingJobs w;
     taskFunctions := taskFunctions w;
     maxConcurrent := maxConcurrent w;
     stop := stop w;
     done := done w;
     goroutines := goroutines w;
     ext := ext w;
     clock := clock w;
     ticks := ticks w;
     faults := x;
     trace := trace w;
     writes := writes w |}.

Definition set_trace (x : list Event) (w : World) : World :=
  {| db := db w;
     workerPool := workerPool w;
     ongoingJobs := ongoingJobs w;
     taskFunctions := taskFunctions w;
     maxConcurrent := maxConcurrent w;
     stop := stop w;
     done := done w;
     goroutines := goroutines w;
     ext := ext w;
     clock := clock w;
     ticks := ticks w;
     faults := faults w;
     trace := x;
     writes := writes w |}.

Definition set_writes (x : list JobExecution) (w : World) : World :=
  {| db := db w;
     workerPool := workerPool w;
     ongoingJobs := ongoingJobs w;
     taskFunctions := taskFunctions w;
     maxConcurrent := maxConcurrent w;
     stop := stop w;
     done := done w;
     goroutines := goroutines w;
     ext := ext w;
     clock := clock w;
     ticks := ticks w;
     faults := faults w;
     trace := trace w;
     writes := x |}.

(** ** The state monad of the engine *)

Definition M (A : Type) : Type := World -> A * World.

Definition ret {A} (a : A) : M A := fun w => (a, w).

Definition bind {A B} (m : M A) (k : A -> M B) : M B :=
  fun w => let (a, w') := m w in k a w'.

Notation "x <- m ;; k" := (bind m (fun x => k))
  (at level 100, m at next level, right associativity).
Notation "m ;;; k" := (bind m (fun _ => k))
  (at level 100, right associativity).

(** [time.Now()]: a reading of the clock, in nanoseconds. *)
Definition time_Now : M Z :=
  fun w => (clock w (ticks w), set_ticks (S (ticks w)) w).

(** [t.UnixNano()]: the reading as an [int64]. *)
Definition UnixNano (t : Z) : Z := wrap64 t.

Definition emit (e : Event) : M unit :=
  fun w => (tt, set_trace (trace w ++ [e]) w).

(** [time.Sleep(d)] *)
Definition time_Sleep (d : Z) : M unit := emit (EvSleep d).

(** [log.Printf] with the formatted message. *)
Definition log_Printf (msg : string) : M unit := emit (EvLog msg).

(** A call [fn(ctx, data)] of the implementation registered for [taskID]. *)
Definition invoke (taskID : string) (fn : TaskFunction) (ctx : Context)
    (data : Data) : M error :=
  emit (EvInvoke taskID);;;
  fun w => let (err, e') := fn ctx data (ext w) in (err, set_ext e' w).

(** The poll [select { case <-ctx.Done(): ... default: ... }]. *)
Definition ctx_Done (ctx : Context) : M bool :=
  fun w => (Done ctx (ext w), w).

(** ** internal/storage: BoltDB *)

(** Store failures.  A bbolt transaction can fail as a whole (the file
    cannot be written, or [Close] has closed the database under an
    execution still in flight); the engine sees an error whose message is
    not one of its own.  The environment decides which transactions fail:
    [faults] holds the outcome of the next transactions, in order, and the
    transactions after its end succeed. *)
Definition errTx : string := "database not open".

Definition next_fault : M bool :=
  fun w => match faults w with
           | [] => (false, w)
           | b :: fs => (b, set_faults fs w)
           end.

(** [b.db.Update(fn)]: a read-write transaction; the changes of [fn] are
    committed when it returns [nil] and rolled back otherwise. *)
Definition db_Update (fn : BoltDB -> error * BoltDB) : M error :=
  failed <- next_fault;;
  if (failed : bool) then ret (Some errTx)
  else fun w => match fn (db w) with
                | (None, db') => (None, set_db db' w)
                | (Some msg, _) => (Some msg, w)
                end.

(** [b.db.View(fn)]: a read-only transaction. *)
Definition db_View {A} (fn : BoltDB -> result A) : M (result A) :=
  failed <- next_fault;;
  if (failed : bool) then ret (Err errTx)
  else fun w => (fn (db w), w).

Definition put_job_definition (jd : JobDefinition) (b : BoltDB) : BoltDB :=
  {| job_definitions := <[JobDefinition_ID jd := jd]> (job_definitions b);
     job_executions := job_executions b; queue := queue b |}.

Definition put_job_execution (je : JobExecution) (b : BoltDB) : BoltDB :=
  {| job_definitions := job_definitions b;
     job_executions := <[ID je := je]> (job_executions b); queue := queue b |}.

Definition set_queue (q : gset string) (b : BoltDB) : BoltDB :=
  {| job_definitions := job_definitions b;
     job_executions := job_executions b; queue := q |}.

(** The keys of a bucket in the order a cursor visits them: ascending in
    the byte-wise lexicographic order of the keys ([String.le] is the order
    of [String.leb], which compares the character codes). *)
Definition bucket_keys (keys : gset string) : list string :=
  merge_sort String.le (elements keys).

(** The values of a bucket in the order [ForEach] visits them. *)
Definition bucket_values {V} (m : gmap string V) : list V :=
  omap (fun k => m !! k) (bucket_keys (dom m)).

(** [bucket.Put] refuses a key that is empty or longer than [MaxKeySize]
    bytes, with bbolt's [ErrKeyRequired] and [ErrKeyTooLarge]; the methods
    return that error and the transaction is rolled back.  The check is
    written out where the caller chooses the key: the id of a definition
    and the id put in the queue.  (The key of an execution is the id that
    [EnqueueJob] of the orchestrator has made.) *)
Definition MaxKeySize : Z := 32768.

Definition put_key_error (key : string) : error :=
  if String.eqb key "" then Some "key required"
  else if MaxKeySize <? Z.of_nat (String.length key) then Some "key too large"
  else None.

(** The keys that [bucket.Put] accepts. *)
Definition valid_key (key : string) : Prop := put_key_error key = None.

Definition StoreJobDefinition (jd : JobDefinition) : M error :=
  db_Update (fun b => match put_key_error (JobDefinition_ID jd) with
                      | Some e => (Some e, b)
                      | None => (None, put_job_definition jd b)
                      end).

Definition GetJobDefinition (id : string) : M (result JobDefinition) :=
  db_View (fun b => match job_definitions b !! id with
                    | None => Err "job definition not found"
                    | Some jd => Ok jd
                    end).

Definition GetRunningJobs : M (result (list string)) :=
  db_View (fun b =>
    Ok (ID <$> filter (fun je => Status je = JobStatusRunning)
                      (bucket_values (job_executions b)))).

Definition StoreJobExecution (je : JobExecution) : M error :=
  err <- db_Update (fun b => (None, put_job_execution je b));;
  match err with
  | None => fun w => (None, set_writes (writes w ++ [je]) w)
  | Some msg => ret (Some msg)
  end.

Definition GetJobExecution (id : string) : M (result JobExecution) :=
  db_View (fun b => match job_executions b !! id with
                    | None => Err "job execution not found"
                    | Some je => Ok je
                    end).

Definition UpdateJobExecution (je : JobExecution) : M error :=
  StoreJobExecution je.

Definition GetQueuedJobs : M (result (list string)) :=
  db_View (fun b => Ok (bucket_keys (queue b))).

Definition BoltDB_EnqueueJob (jobID : string) : M error :=
  db_Update (fun b => match put_key_error jobID with
                      | Some e => (Some e, b)
                      | None => (None, set_queue ({[jobID]} ∪ queue b) b)
                      end).

Definition errQueueEmpty : string := "queue is empty".

(** [DequeueJob]'s transaction: the closure assigns the captured [jobID]
    before it deletes the key, so the method returns [(jobID, err)] with the
    zero string when the closure failed. *)
Definition DequeueJob : M (result string) :=
  failed <- next_fault;;
  if (failed : bool) then ret (Err errTx)
  else fun w =>
    match head (bucket_keys (queue (db w))) with      (* cursor.First() *)
    | None => (Err errQueueEmpty, w)
    | Some k => (Ok k, set_db (set_queue (queue (db w) ∖ {[k]}) (db w)) w)
    end.

Definition GetQueuedJobCount : M (result nat) :=
  db_View (fun b => Ok (size (queue b))).

Definition RemoveFromQueue (jobID : string) : M error :=
  db_Update (fun b => (None, set_queue (queue b ∖ {[jobID]}) b)).

(** ** internal/orchestrator: the shared fields *)

(** [o.ongoingJobs.Store(id, struct{}{})] and [o.ongoingJobs.Delete(id)] on
    the [sync.Map] used as a set. *)
Definition ongoingJobs_Store (id : string) : M unit :=
  fun w => (tt, set_ongoingJobs ({[id]} ∪ ongoingJobs w) w).

Definition ongoingJobs_Delete (id : string) : M unit :=
  fun w => (tt, set_ongoingJobs (ongoingJobs w ∖ {[id]}) w).

(** [go f()]: the goroutine is started; it runs later. *)
Definition go (g : Goroutine) : M unit :=
  fun w => (tt, set_goroutines (goroutines w ++ [g]) w).

(** ** internal/orchestrator/task.go *)

(** [time.Duration(1<<retries) * time.Second]: both the shift and the
    product are 64-bit. *)
Definition backoff (retries : Z) : Z := mul64 (shl64 1 retries) Second.

Definition RegisterTaskFunction (taskID : string) (fn : TaskFunction) : M unit :=
  fun w => (tt, set_taskFunctions (<[taskID := fn]> (taskFunctions w)) w).

(** The loop [for retries := 0; retries <= task.MaxRetry; retries++] of
    [executeTask], entered at [retries].  The structural argument counts the
    values of [retries] up to [task.MaxRetry] that are still to come: it is
    [0] exactly when the loop condition fails, and the statement after the
    loop is reached (see [retryLoop_unfold]). *)
Fixpoint retryLoop (left : nat) (fn : TaskFunction) (ctx : Context)
    (task : Task) (data : Data) (retries : Z) : M error :=
  match left with
  | O =>
      ret (Some ("task " +:+ Task_ID task +:+ " failed after " +:+
                 fmt_d (MaxRetry task) +:+ " retries"))
  | S left' =>
      err <- invoke (Task_ID task) fn ctx data;;
      match err with
      | None => ret None
      | Some e =>
          if retries =? MaxRetry task then
            ret (Some ("task " +:+ Task_ID task +:+ " failed after " +:+
                       fmt_d (MaxRetry task) +:+ " retries: " +:+ e))
          else
            time_Sleep (backoff retries);;;
            retryLoop left' fn ctx task data (retries + 1)
      end
  end.

Definition executeTask (ctx : Context) (task : Task) (data : Data) : M error :=
  fun w =>
    match taskFunctions w !! Task_ID task with
    | None =>
        (Some ("no function registered for task ID: " +:+ Task_ID task), w)
    | Some fn =>
        retryLoop (Z.to_nat (MaxRetry task + 1)) fn ctx task data 0 w
    end.

(** ** internal/orchestrator/job.go *)

Definition EnqueueJob (definitionID : string) (data : Data) : M (result string) :=
  t0 <- time_Now;;
  t1 <- time_Now;;
  let execution :=
    {| ID := "exec-" +:+ fmt_d (UnixNano t0); DefinitionID := definitionID;
       Status := JobStatusQueued; StartTime := t1; EndTime := None;
       JobData := data; TaskStatuses := ∅ |} in
  err <- StoreJobExecution execution;;
  match err with
  | Some e => ret (Err e)
  | None =>
      err <- BoltDB_EnqueueJob (ID execution);;
      match err with
      | Some e => ret (Err e)
      | None => ret (Ok (ID execution))
      end
  end.

(** [if err != nil { log.Printf(format, err) }] *)
Definition log_if (prefix : string) (err : error) : M unit :=
  match err with
  | Some e => log_Printf (prefix +:+ e)
  | None => ret tt
  end.

(** The best-effort write of the state machine:
    [if err := o.db.UpdateJobExecution(je); err != nil { log.Printf(format, err) }] *)
Definition update_or_log (prefix : string) (je : JobExecution) : M unit :=
  err <- UpdateJobExecution je;;
  log_if prefix err.

(** The loop over [jd.Tasks]; [je] is the record the pointer refers to.
    The result is the record on leaving the loop and the error of a
    [return] taken inside it ([None] when the loop ran to its end). *)
Fixpoint ExecuteJob_tasks (ctx : Context) (tasks : list Task)
    (je : JobExecution) : M (JobExecution * option string) :=
  match tasks with
  | [] => ret (je, None)
  | task :: rest =>
      cancelled <- ctx_Done ctx;;
      if (cancelled : bool) then
        let je := set_Status JobStatusFailed je in
        let je := set_TaskStatus (Task_ID task) TaskStatusFailed je in
        ret (je, Some (ctx_Err ctx))
      else
        let je := set_TaskStatus (Task_ID task) TaskStatusRunning je in
        update_or_log "Failed to update task status to running: " je;;;
        err <- executeTask ctx task (JobData je);;
        match err with
        | Some e =>
            let je := set_TaskStatus (Task_ID task) TaskStatusFailed je in
            let je := set_Status JobStatusFailed je in
            update_or_log "Failed to update job execution after task failure: " je;;;
            ret (je, Some ("task " +:+ Task_ID task +:+ " failed: " +:+ e))
        | None =>
            let je := set_TaskStatus (Task_ID task) TaskStatusCompleted je in
            update_or_log "Failed to update task status to completed: " je;;;
            ExecuteJob_tasks ctx rest je
        end
  end.

(** [ExecuteJob] from the registration of the deferred function to the
    [return]: the record at the return and the returned error. *)
Definition ExecuteJob_body (ctx : Context) (jd : JobDefinition)
    (je : JobExecution) : M (JobExecution * error) :=
  p <- ExecuteJob_tasks ctx (Tasks jd) je;;
  let je := fst p in
  match snd p with
  | Some e => ret (je, Some e)
  | None =>
      let je := set_Status JobStatusCompleted je in
      err <- UpdateJobExecution je;;
      match err with
      | Some e =>
          ret (je, Some ("failed to update job execution status to completed: " +:+ e))
      | None => ret (je, None)
      end
  end.

(** The deferred function of [ExecuteJob]. *)
Definition ExecuteJob_deferred (executionID : string) (je : JobExecution)
    : M unit :=
  ongoingJobs_Delete executionID;;;
  t <- time_Now;;
  let je := set_EndTime t je in
  update_or_log "Failed to update job execution after completion: " je;;;
  err <- RemoveFromQueue executionID;;
  log_if ("Failed to remove job " +:+ executionID +:+ " from queue: ") err.

Definition terminal (s : JobStatus) : bool :=
  match s with
  | JobStatusCompleted | JobStatusFailed => true
  | _ => false
  end.

Definition ExecuteJob (ctx : Context) (executionID : string) : M error :=
  r <- GetJobExecution executionID;;
  match r with
  | Err e => ret (Some ("failed to get job execution: " +:+ e))
  | Ok je =>
      if terminal (Status je) then ret None
      else
        r <- GetJobDefinition (DefinitionID je);;
        match r with
        | Err e => ret (Some ("failed to get job definition: " +:+ e))
        | Ok jd =>
            let je := set_Status JobStatusRunning je in
            err <- UpdateJobExecution je;;
            match err with
            | Some e =>
                ret (Some ("failed to update job execution status to running: "
                           +:+ e))
            | None =>
                ongoingJobs_Store executionID;;;
                p <- ExecuteJob_body ctx jd je;;
                ExecuteJob_deferred executionID (fst p);;;
                ret (snd p)
            end
        end
  end.

(** ** internal/orchestrator/orchestrator.go *)

Fixpoint recoverState_jobs (runningJobs : list string) : M unit :=
  match runningJobs with
  | [] => ret tt
  | jobID :: rest =>
      ongoingJobs_Store jobID;;;
      go {| g_executionID := jobID; g_releases := false |};;;
      recoverState_jobs rest
  end.

Definition recoverState : M error :=
  r <- GetRunningJobs;;
  match r with
  | Err e => ret (Some e)
  | Ok runningJobs => recoverState_jobs runningJobs;;; ret None
  end.

(** [New(db, maxConcurrent)] in a given environment.  The queue loop it
    starts with [go o.processQueue()] is run by [processQueue_iteration]. *)
Definition New (b : BoltDB) (maxConcurrent : nat) (e : Ext) (clk : nat -> Z)
    (fl : list bool) : result World :=
  let o := {| db := b; workerPool := 0%nat; ongoingJobs := ∅;
              taskFunctions := ∅; maxConcurrent := maxConcurrent;
              stop := false; done := false; goroutines := [];
              ext := e; clock := clk; ticks := 0%nat; faults := fl;
              trace := []; writes := [] |} in
  match recoverState o with
  | (Some e, _) => Err ("failed to recover state: " +:+ e)
  | (None, o') => Ok o'
  end.

(** How one turn of the [for] loop of [processQueue] ends. *)
Inductive Iteration : Type :=
  | LoopReturn                     (* the stop signal was received *)
  | LoopContinue                   (* the next turn starts *)
  | LoopBlocked (jobID : string).  (* waiting to send on a full workerPool *)

(** [o.workerPool <- struct{}{}] followed by the [go func(id string)]. *)
Definition processQueue_dispatch (jobID : string) : M Iteration :=
  fun w =>
    if decide (workerPool w < maxConcurrent w)%nat then
      (LoopContinue,
       snd (go {| g_executionID := jobID; g_releases := true |}
               (set_workerPool (S (workerPool w)) w)))
    else (LoopBlocked jobID, w).

Definition processQueue_iteration : M Iteration :=
  fun w =>
    if stop w then (LoopReturn, set_done true (set_stop false w))
    else
      (r <- DequeueJob;;
       match r with
       | Err msg =>
           if String.eqb msg "queue is empty" then
             time_Sleep Second;;; ret LoopContinue
           else
             log_Printf ("Error dequeuing job: " +:+ msg);;; ret LoopContinue
       | Ok jobID => processQueue_dispatch jobID
       end) w.

(** The body of a goroutine started by [recoverState] or [processQueue]. *)
Definition run_goroutine (g : Goroutine) : M unit :=
  err <- ExecuteJob Background (g_executionID g);;
  if g_releases g then
    log_if ("Error executing job " +:+ g_executionID g +:+ ": ") err;;;
    fun w => (tt, set_workerPool (pred (workerPool w)) w)
  else ret tt.

Definition RegisterJobDefinition (jd : JobDefinition) : M error :=
  StoreJobDefinition jd.

(** ** Properties of task implementations and of traces *)

Definition always_fails (fn : TaskFunction) : Prop :=
  forall ctx data e, fst (fn ctx data e) <> None.

Definition always_succeeds (fn : TaskFunction) : Prop :=
  forall ctx data e, fst (fn ctx data e) = None.

(** The task ids of the calls in a trace, and the durations of its sleeps. *)
Definition invocations (evs : list Event) : list string :=
  omap (fun ev => match ev with EvInvoke id => Some id | _ => None end) evs.

Definition sleeps (evs : list Event) : list Z :=
  omap (fun ev => match ev with EvSleep d => Some d | _ => None end) evs.

(** What [retryLoop] does when every attempt fails: [n] failed attempts
    followed by a sleep each, from [retries] on, and a last failed attempt. *)
Fixpoint retry_events (taskID : string) (n : nat) (retries : Z) : list Event :=
  match n with
  | O => [EvInvoke taskID]
  | S n' =>
      EvInvoke taskID :: EvSleep (backoff retries)
        :: retry_events taskID n' (retries + 1)
  end.


Definition RetriesExhausted (task : Task) (last : string) : string :=
  "task " +:+ Task_ID task +:+ " failed after " +:+ fmt_d (MaxRetry task)
  +:+ " retries: " +:+ last.


(** A world that differs from [w] in its trace and outside world only. *)
Definition touches_trace_ext (w w' : World) : Prop :=
  w' = set_ext (ext w') (set_trace (trace w') w).

(** A world that differs from [w] in what the job state machine acts on
    only: the trace, the outside world, the fault stream, the write log and
    the [job_executions] bucket. *)
Definition job_frame (w w' : World) : Prop :=
  workerPool w' = workerPool w /\ ongoingJobs w' = ongoingJobs w /\
  taskFunctions w' = taskFunctions w /\ maxConcurrent w' = maxConcurrent w /\
  stop w' = stop w /\ done w' = done w /\ goroutines w' = goroutines w /\
  clock w' = clock w /\ ticks w' = ticks w /\
  job_definitions (db w') = job_definitions (db w) /\
  queue (db w') = queue (db w).

(** The world after a committed write of [je]. *)
Definition committed (je : JobExecution) (w : World) : World :=
  set_writes (writes w ++ [je]) (set_db (put_job_execution je (db w)) w).

(** Two records of the same execution: they differ in [Status] and
    [TaskStatuses] at most. *)
Definition same_identity (je je' : JobExecution) : Prop :=
  ID je' = ID je /\ DefinitionID je' = DefinitionID je /\
  StartTime je' = StartTime je /\ EndTime je' = EndTime je /\
  JobData je' = JobData je.

(** The statuses after the tasks [pre] have completed. *)
Definition completed_all (pre : list Task) (ts : gmap string TaskStatus)
    : gmap string TaskStatus :=
  foldl (fun ts p => <[Task_ID p := TaskStatusCompleted]> ts) ts pre.

(** A task that cannot fail in the state machine of [w]: its budget is not
    negative and its registered implementation succeeds at every call. *)
Definition succeeds_in (w : World) (p : Task) : Prop :=
  0 <= MaxRetry p /\
  exists fn, taskFunctions w !! Task_ID p = Some fn /\ always_succeeds fn.

(** The order PENDING < RUNNING < {COMPLETED, FAILED} on task statuses; a
    task without an entry in [TaskStatuses] is PENDING. *)
Definition rank (s : TaskStatus) : nat :=
  match s with
  | TaskStatusPending => 0
  | TaskStatusRunning => 1
  | TaskStatusCompleted | TaskStatusFailed => 2
  end%nat.

Definition status_at (ts : gmap string TaskStatus) (k : string) : TaskStatus :=
  default TaskStatusPending (ts !! k).

Definition status_le (a b : TaskStatus) : Prop := a = b \/ (rank a < rank b)%nat.

Definition statuses_le (ts ts' : gmap string TaskStatus) : Prop :=
  forall k, status_le (status_at ts k) (status_at ts' k).

(** A succession of persisted [TaskStatuses] in which no task ever goes
    back: every snapshot is below every later one. *)
Definition monotone_history (h : list (gmap string TaskStatus)) : Prop :=
  StronglySorted statuses_le h.

(** The records [new], written in this order, lead from the statuses [a] to
    the statuses [b] without any task going back. *)
Definition chain (a : gmap string TaskStatus) (new : list JobExecution)
    (b : gmap string TaskStatus) : Prop :=
  statuses_le a b /\
  Forall (fun x => statuses_le a (TaskStatuses x) /\
                   statuses_le (TaskStatuses x) b) new /\
  monotone_history (TaskStatuses <$> new).

(** No task of [tasks] is recorded as COMPLETED or FAILED in [ts]. *)
Definition none_finished (tasks : list Task) (ts : gmap string TaskStatus)
    : Prop :=
  forall t, t ∈ tasks -> (rank (status_at ts (Task_ID t)) <= 1)%nat.

(** ** The queue as a first-in first-out list *)









(** Two worlds that agree on everything but the [job_executions] bucket
    and the write log. *)
Definition same_but_executions (w1 w2 : World) : Prop :=
  workerPool w1 = workerPool w2 /\ ongoingJobs w1 = ongoingJobs w2 /\
  taskFunctions w1 = taskFunctions w2 /\ maxConcurrent w1 = maxConcurrent w2 /\
  stop w1 = stop w2 /\ done w1 = done w2 /\ goroutines w1 = goroutines w2 /\
  ext w1 = ext w2 /\ clock w1 = clock w2 /\ ticks w1 = ticks w2 /\
  faults w1 = faults w2 /\ trace w1 = trace w2 /\
  job_definitions (db w1) = job_definitions (db w2) /\
  queue (db w1) = queue (db w2).

(** The record of an execution as [EnqueueJob] created it: QUEUED, no task
    status recorded. *)
Definition as_enqueued (je : JobExecution) : JobExecution :=
  set_TaskStatuses ∅ (set_Status JobStatusQueued je).

(** The world in which the record stored under [id] is [je]. *)
Definition with_execution (id : string) (je : JobExecution) (w : World)
    : World :=
  set_db {| job_definitions := job_definitions (db w);
            job_executions := <[id := je]> (job_executions (db w));
            queue := queue (db w) |} w.

(** Two records of one execution with the same job status. *)
Definition same_job (je1 je2 : JobExecution) : Prop :=
  same_identity je1 je2 /\ Status je1 = Status je2.

(** The next [n] transactions do not fail. *)
Definition no_fault_in (n : nat) (w : World) : Prop :=
  Forall (fun b => b = false) (take n (faults w)).

(** The world in which [ExecuteJob] registers its deferred function: the
    record was read, the definition resolved, the RUNNING write committed
    and the id stored in the ongoing set. *)
Definition running_world (executionID : string) (je : JobExecution)
    (w : World) : World :=
  snd (ongoingJobs_Store executionID
         (committed (set_Status JobStatusRunning je)
                    (set_faults (drop 3 (faults w)) w))).

(** The cleanup of [ExecuteJob] has been carried out in [w]: the id is in
    neither the ongoing set nor the queue, and the stored record has its
    end time stamped. *)
Definition cleaned_up (executionID : string) (w : World) : Prop :=
  (executionID ∉ ongoingJobs w) /\
  (executionID ∉ queue (db w)) /\
  exists je, job_executions (db w) !! executionID = Some je /\
             EndTime je <> None.

(** ** job.go and orchestrator.go: the state queries *)

(** [models.TaskState].  The status is read with [je.TaskStatuses[task.ID]],
    which yields the zero value (the empty string, none of the four status
    constants) for a task without an entry: [None] here. *)
Record TaskState : Type := {
  TaskState_ID : string;
  TaskState_Name : string;
  TaskState_Status : option TaskStatus
}.

(** [models.JobExecutionState] *)
Record JobExecutionState : Type := {
  State_ID : string;
  State_DefinitionID : string;
  State_Status : JobStatus;
  State_StartTime : Z;
  State_Tasks : list TaskState
}.

(** [models.SystemState] *)
Record SystemState : Type := {
  ActiveJobs : list JobExecutionState;
  QueuedJobs : list string;
  QueuedCount : nat
}.

(** The element appended by one turn of the loop over [jd.Tasks]. *)
Definition task_state (je : JobExecution) (task : Task) : TaskState :=
  {| TaskState_ID := Task_ID task; TaskState_Name := Task_Name task;
     TaskState_Status := TaskStatuses je !! Task_ID task |}.

Definition GetJobExecutionState (executionID : string)
    : M (result JobExecutionState) :=
  r <- GetJobExecution executionID;;
  match r with
  | Err e => ret (Err e)
  | Ok je =>
      r <- GetJobDefinition (DefinitionID je);;
      match r with
      | Err e => ret (Err e)
      | Ok jd =>
          ret (Ok {| State_ID := ID je; State_DefinitionID := DefinitionID je;
                     State_Status := Status je; State_StartTime := StartTime je;
                     State_Tasks := task_state je <$> Tasks jd |})
      end
  end.

(** The callback of [o.ongoingJobs.Range] over the keys in the order the map
    hands them out ([sync.Map] fixes none): a key whose state cannot be read
    is passed over. *)
Fixpoint GetSystemState_range (keys : list string)
    (active : list JobExecutionState) : M (list JobExecutionState) :=
  match keys with
  | [] => ret active
  | jobID :: rest =>
      r <- GetJobExecutionState jobID;;
      match r with
      | Ok jobState => GetSystemState_range rest (active ++ [jobState])
      | Err _ => GetSystemState_range rest active
      end
  end.

(** [GetSystemState] when [Range] visits the ongoing ids in the order
    [keys]. *)
Definition GetSystemState_visiting (keys : list string)
    : M (result SystemState) :=
  active <- GetSystemState_range keys [];;
  r <- GetQueuedJobs;;
  match r with
  | Err e => ret (Err e)
  | Ok queuedJobs =>
      r <- GetQueuedJobCount;;
      match r with
      | Err e => ret (Err e)
      | Ok queuedCount =>
          ret (Ok {| ActiveJobs := active; QueuedJobs := queuedJobs;
                     QueuedCount := queuedCount |})
      end
  end.

Definition GetSystemState : M (result SystemState) :=
  fun w => GetSystemState_visiting (elements (ongoingJobs w)) w.

(** ** orchestrator.go: the queue loop and its goroutines over time *)

(** Where the goroutine of [processQueue] stands between two of its turns:
    at the head of the loop, in the send on a full [workerPool] with the id
    it has dequeued, or returned. *)
Inductive LoopState : Type :=
  | AtLoopHead
  | InSend (jobID : string)
  | LoopEnded.

Definition after_turn (it : Iteration) : LoopState :=
  match it with
  | LoopReturn => LoopEnded
  | LoopContinue => AtLoopHead
  | LoopBlocked jobID => InSend jobID
  end.

(** The queue loop advances by one turn; a loop waiting in the send tries
    the send again. *)
Definition processQueue_advance (ls : LoopState) : M LoopState :=
  match ls with
  | AtLoopHead => it <- processQueue_iteration;; ret (after_turn it)
  | InSend jobID => it <- processQueue_dispatch jobID;; ret (after_turn it)
  | LoopEnded => ret LoopEnded
  end.

(** The started goroutine at position [i] runs to its end. *)
Definition finish_goroutine (i : nat) : M unit :=
  fun w =>
    match goroutines w !! i with
    | None => (tt, w)
    | Some g => run_goroutine g (set_goroutines (delete i (goroutines w)) w)
    end.

(** One step of a schedule: the queue loop takes a turn, or a started
    goroutine finishes. *)
Inductive Step : Type :=
  | StepQueue
  | StepFinish (i : nat).

Fixpoint run_schedule (steps : list Step) (ls : LoopState) : M LoopState :=
  match steps with
  | [] => ret ls
  | StepQueue :: rest =>
      ls' <- processQueue_advance ls;; run_schedule rest ls'
  | StepFinish i :: rest =>
      finish_goroutine i;;; run_schedule rest ls
  end.

(** ** cmd/server/main.go: loadJobDefinitions *)

(** [filepath.Ext]: the suffix from the last dot of the last element of the
    path, empty when that element has no dot. *)
Fixpoint has_separator (path : string) : bool :=
  match path with
  | EmptyString => false
  | String c rest => Ascii.eqb c "/"%char || has_separator rest
  end.

Fixpoint filepath_Ext (path : string) : string :=
  match path with
  | EmptyString => ""
  | String c rest =>
      match filepath_Ext rest with
      | EmptyString =>
          if has_separator rest then ""
          else if Ascii.eqb c "."%char then path else ""
      | ext => ext
      end
  end.

(** An entry of the directory [job_definitions]: its name and what
    [os.ReadFile] followed by [json.Unmarshal] gives for it. *)
Record File : Type := {
  File_Name : string;
  File_Content : result JobDefinition
}.

(** The loop over [jobDef.Tasks]; [available] is the map that
    [loadTaskFunctions] has returned. *)
Fixpoint loadJobDefinitions_tasks (jobDefID : string) (tasks : list Task)
    (available : gmap string TaskFunction) : M error :=
  match tasks with
  | [] => ret None
  | task :: rest =>
      match available !! FunctionName task with
      | None =>
          ret (Some ("no function found for task " +:+ Task_ID task +:+
                     " in job " +:+ jobDefID))
      | Some fn =>
          RegisterTaskFunction (Task_ID task) fn;;;
          loadJobDefinitions_tasks jobDefID rest available
      end
  end.

(** The loop over the directory entries. *)
Fixpoint loadJobDefinitions_files (files : list File)
    (available : gmap string TaskFunction) : M error :=
  match files with
  | [] => ret None
  | file :: rest =>
      if negb (String.eqb (filepath_Ext (File_Name file)) ".json") then
        loadJobDefinitions_files rest available
      else
        match File_Content file with
        | Err e => ret (Some e)
        | Ok jobDef =>
            err <- RegisterJobDefinition jobDef;;
            match err with
            | Some e => ret (Some e)
            | None =>
                err <- loadJobDefinitions_tasks (JobDefinition_ID jobDef)
                         (Tasks jobDef) available;;
                match err with
                | Some e => ret (Some e)
                | None =>
                    log_Printf ("Loaded job definition: " +:+
                                JobDefinition_ID jobDef);;;
                    loadJobDefinitions_files rest available
                end
            end
        end
  end.

(** [loadJobDefinitions]; [dir] is the result of [os.ReadDir]. *)
Definition loadJobDefinitions (dir : result (list File))
    (available : gmap string TaskFunction) : M error :=
  match dir with
  | Err e => ret (Some e)
  | Ok files => loadJobDefinitions_files files available
  end.

(** ** internal/api/handlers *)

(** What a handler writes: the status code and the body. *)
Inductive ResponseBody : Type :=
  | BodyError (msg : string)                 (* http.Error *)
  | BodyMessage (msg : string)               (* {"message": msg} *)
  | BodyExecutionID (executionID : string)   (* {"executionID": id} *)
  | BodyJobState (state : JobExecutionState)
  | BodySystemState (state : SystemState).

Record Response : Type := {
  StatusCode : Z;
  Body : ResponseBody
}.

(** [body] is the result of decoding the request body. *)
Definition HandleRegisterJobDefinition (body : result JobDefinition)
    : M Response :=
  match body with
  | Err _ =>
      ret {| StatusCode := 400; Body := BodyError "Invalid request body" |}
  | Ok jd =>
      err <- RegisterJobDefinition jd;;
      match err with
      | Some e => ret {| StatusCode := 500; Body := BodyError e |}
      | None =>
          ret {| StatusCode := 201;
                 Body := BodyMessage "Job definition registered successfully" |}
      end
  end.

(** [empty] is the map [make(map[string]interface{})] that stands in for a
    body that does not decode. *)
Definition HandleExecuteJob (empty : Data) (definitionID : string)
    (body : result Data) : M Response :=
  let data := match body with Ok d => d | Err _ => empty end in
  r <- EnqueueJob definitionID data;;
  match r with
  | Err e => ret {| StatusCode := 500; Body := BodyError e |}
  | Ok executionID =>
      ret {| StatusCode := 202; Body := BodyExecutionID executionID |}
  end.

Definition HandleGetJobState (executionID : string) : M Response :=
  r <- GetJobExecutionState executionID;;
  match r with
  | Err e => ret {| StatusCode := 404; Body := BodyError e |}
  | Ok state => ret {| StatusCode := 200; Body := BodyJobState state |}
  end.

Definition HandleGetSystemState : M Response :=
  r <- GetSystemState;;
  match r with
  | Err e => ret {| StatusCode := 500; Body := BodyError e |}
  | Ok state => ret {| StatusCode := 200; Body := BodySystemState state |}
  end.

(** ** Further properties of stores, runs and schedules *)

(** Every stored execution sits under its own id. *)
Definition keyed_by_ID (b : BoltDB) : Prop :=
  forall k je, job_executions b !! k = Some je -> ID je = k.

(** The records stored under the keys other than [key] are the same in [w]
    and [w']. *)
Definition other_records_kept (key : string) (w w' : World) : Prop :=
  forall k, k <> key ->
            job_executions (db w') !! k = job_executions (db w) !! k.

(** [fn] fails on its first [k] calls from the environment [e] and succeeds
    on the next one. *)
Fixpoint fails_then_succeeds (k : nat) (fn : TaskFunction) (ctx : Context)
    (data : Data) (e : Ext) : Prop :=
  match k with
  | O => fst (fn ctx data e) = None
  | S k' =>
      fst (fn ctx data e) <> None /\
      fails_then_succeeds k' fn ctx data (snd (fn ctx data e))
  end.

(** The started goroutines that hold a slot of the worker pool. *)
Definition holding_slot (gs : list Goroutine) : list Goroutine :=
  filter (fun g => g_releases g = true) gs.

(** Every taken slot of the worker pool belongs to a started goroutine that
    will release it, and no more than [maxConcurrent] slots are taken. *)
Definition pool_accounted (w : World) : Prop :=
  workerPool w = length (holding_slot (goroutines w)) /\
  (workerPool w <= maxConcurrent w)%nat.

(** Between [w] and [w'] the bucket of executions has changed under [key] at
    most, and a record written there carries [key] as its id. *)
Definition own_record_only (key : string) (w w' : World) : Prop :=
  other_records_kept key w w' /\
  forall je', job_executions (db w') !! key = Some je' ->
              job_executions (db w) !! key = Some je' \/ ID je' = key.

(** The fields of the orchestrator and the bucket of definitions that a run
    of the state machine leaves as they are. *)
Definition engine_kept (w w' : World) : Prop :=
  workerPool w' = workerPool w /\ taskFunctions w' = taskFunctions w /\
  maxConcurrent w' = maxConcurrent w /\ stop w' = stop w /\
  done w' = done w /\ goroutines w' = goroutines w /\ clock w' = clock w /\
  job_definitions (db w') = job_definitions (db w).

(** The ids other than [id] are queued and ongoing in [w'] as in [w]. *)
Definition other_ids_kept (id : string) (w w' : World) : Prop :=
  forall x, x <> id ->
            (x ∈ queue (db w') <-> x ∈ queue (db w)) /\
            (x ∈ ongoingJobs w' <-> x ∈ ongoingJobs w).

End Engine.

Notation "x <- m ;; k" := (bind m (fun x => k))
  (at level 100, m at next level, right associativity).
Notation "m ;;; k" := (bind m (fun _ => k))
  (at level 100, right associativity).

(** ** Concrete runs

    The scenario of the specification: a definition with [task1] (no retry,
    always succeeds) and [task2] (one retry, always fails), task
    implementations without any state of their own, and a clock that
    advances by one nanosecond at each reading. *)
Module Scenario.

Definition succeeding : @TaskFunction unit unit := fun _ _ e => (None, e).
Definition failing : @TaskFunction unit unit :=
  fun _ _ e => (Some "boom", e).

Definition task1 : Task :=
  {| Task_ID := "task1"; Task_Name := "first"; MaxRetry := 0;
     FunctionName := "task1Function" |}.
Definition task2 : Task :=
  {| Task_ID := "task2"; Task_Name := "second"; MaxRetry := 1;
     FunctionName := "task2Function" |}.
Definition two_tasks : JobDefinition :=
  {| JobDefinition_ID := "two-tasks"; JobDefinition_Name := "two tasks";
     Tasks := [task1; task2] |}.


Definition now (n : nat) : Z := 1700000000000000000 + Z.of_nat n.

(** An orchestrator over the database [b], with both implementations
    registered, [k] worker slots and the fault stream [fl]. *)
Definition orchestrator (b : @BoltDB unit) (k : nat) (fl : list bool)
    : @World unit unit :=
  {| db := b; workerPool := 0%nat; ongoingJobs := ∅;
     taskFunctions := {[ "task1" := succeeding; "task2" := failing ]};
     maxConcurrent := k; stop := false; done := false; goroutines := [];
     ext := tt; clock := now; ticks := 0%nat; faults := fl;
     trace := []; writes := [] |}.

Definition definitions_only : @BoltDB unit :=
  {| job_definitions := {[ "two-tasks" := two_tasks ]};
     job_executions := ∅; queue := ∅ |}.

Definition fresh : @World unit unit := orchestrator definitions_only 1 [].

(** The execution of [two_tasks] as a crash left it: [task1] done, [task2]
    under way. *)
Definition interrupted (id : string) : @JobExecution unit :=
  {| ID := id; DefinitionID := "two-tasks"; Status := JobStatusRunning;
     StartTime := 1600000000000000000; EndTime := None; JobData := tt;
     TaskStatuses := {[ "task1" := TaskStatusCompleted;
                        "task2" := TaskStatusRunning ]} |}.

Definition crashed_db : @BoltDB unit :=
  {| job_definitions := {[ "two-tasks" := two_tasks ]};
     job_executions := {[ "exec-1" := interrupted "exec-1";
                          "exec-2" := interrupted "exec-2" ]};
     queue := ∅ |}.

(** The world after [EnqueueJob] of a definition from [fresh], and after
    the scheduler has dequeued the id. *)
Definition enqueued_world (definitionID : string) : @World unit unit :=
  snd (EnqueueJob definitionID tt fresh).

Definition dequeued (definitionID : string) : @World unit unit :=
  snd (DequeueJob (enqueued_world definitionID)).

Definition first_id : string := "exec-1700000000000000000".

(** The record [EnqueueJob] stores first, for a given definition. *)
Definition queued_record (definitionID : string) : @JobExecution unit :=
  {| ID := first_id; DefinitionID := definitionID;
     Status := JobStatusQueued; StartTime := now 1; EndTime := None;
     JobData := tt; TaskStatuses := ∅ |}.

(** The world after the run of the enqueued [two_tasks] execution, and the
    record it leaves in the store. *)
Definition finished : @World unit unit :=
  snd (ExecuteJob Background first_id (dequeued "two-tasks")).

Definition failed_record : @JobExecution unit :=
  {| ID := first_id; DefinitionID := "two-tasks";
     Status := JobStatusFailed; StartTime := now 1; EndTime := Some (now 2);
     JobData := tt;
     TaskStatuses := {[ "task1" := TaskStatusCompleted;
                        "task2" := TaskStatusFailed ]} |}.

(** The orchestrator restarted on the database a crash left, and the same
    with a store whose fourth transaction fails. *)
Definition restarted : @World unit unit := orchestrator crashed_db 1 [].

Definition restarted_failing : @World unit unit :=
  orchestrator crashed_db 1 [false; false; false; true].


End Scenario.

(** * Verification *)

Section Properties.

Context {Data Ext : Type}.
Implicit Types (w v : @World Data Ext) (je : @JobExecution Data)
  (fn : @TaskFunction Data Ext) (ctx : @Context Ext) (data : Data).

(** ** 64-bit arithmetic of the backoff *)



(** ** The ids of executions as keys *)

Lemma nb_digits_double d :
  (Decimal.nb_digits (Decimal.Little.double d) <= S (Decimal.nb_digits d))%nat /\
  (Decimal.nb_digits (Decimal.Little.succ_double d) <= S (Decimal.nb_digits d))%nat.
Proof. induction d; cbn; lia. Qed.

Lemma nb_digits_to_little_uint p :
  (Decimal.nb_digits (Pos.to_little_uint p) <= Pos.size_nat p)%nat.
Proof.
  induction p as [p IH|p IH|]; cbn; [| |lia].
  - pose proof (proj2 (nb_digits_double (Pos.to_little_uint p))). lia.
  - pose proof (proj1 (nb_digits_double (Pos.to_little_uint p))). lia.
Qed.

Lemma nb_digits_revapp d d' :
  Decimal.nb_digits (Decimal.revapp d d')
  = (Decimal.nb_digits d + Decimal.nb_digits d')%nat.
Proof. revert d'. induction d; intros d'; cbn; rewrite ?IHd; cbn; lia. Qed.

Lemma length_string_of_uint d :
  String.length (NilEmpty.string_of_uint d) = Decimal.nb_digits d.
Proof. induction d; cbn; congruence. Qed.

Lemma size_nat_bound p (n : nat) :
  Z.pos p < 2 ^ Z.of_nat n -> (Pos.size_nat p <= n)%nat.
Proof.
  revert n. induction p as [p IH|p IH|]; intros n Hp; cbn.
  - destruct n as [|n]; [cbn in Hp; lia|].
    rewrite Nat2Z.inj_succ, Z.pow_succ_r in Hp by lia.
    specialize (IH n). lia.
  - destruct n as [|n]; [cbn in Hp; lia|].
    rewrite Nat2Z.inj_succ, Z.pow_succ_r in Hp by lia.
    specialize (IH n). lia.
  - destruct n as [|n]; [cbn in Hp; lia|]. lia.
Qed.

Lemma length_to_uint p :
  Z.pos p < 2 ^ 64 -> (String.length (NilZero.string_of_uint (Pos.to_uint p)) <= 64)%nat.
Proof.
  intros Hp. pose proof (size_nat_bound p 64 Hp) as Hs.
  pose proof (nb_digits_to_little_uint p) as Hd.
  assert (String.length (NilEmpty.string_of_uint (Pos.to_uint p)) <= 64)%nat as H.
  { rewrite length_string_of_uint. unfold Pos.to_uint, Decimal.rev.
    rewrite nb_digits_revapp. cbn. lia. }
  unfold NilZero.string_of_uint. destruct (Pos.to_uint p); cbn in *; lia.
Qed.

(** An int64 takes at most 65 bytes when printed with [%d]. *)
Lemma length_fmt_d z : (String.length (fmt_d (UnixNano z)) <= 65)%nat.
Proof.
  unfold UnixNano.
  assert (- 2 ^ 63 <= wrap64 z < 2 ^ 63) as Hr.
  { unfold wrap64. pose proof (Z.mod_pos_bound (z + 2 ^ 63) (2 ^ 64)). lia. }
  unfold fmt_d. destruct (wrap64 z) as [|p|p]; cbn [Z.to_int NilZero.string_of_int].
  - cbn. lia.
  - pose proof (length_to_uint p). lia.
  - pose proof (length_to_uint p). cbn [String.length]. lia.
Qed.

(** The ids that [EnqueueJob] makes are keys that [bucket.Put] accepts. *)
Lemma valid_key_exec z : valid_key ("exec-" +:+ fmt_d (UnixNano z)).
Proof.
  unfold valid_key, put_key_error.
  change (("exec-" +:+ fmt_d (UnixNano z)) =? "")%string with false.
  pose proof (length_fmt_d z) as Hl.
  replace (MaxKeySize <? _) with false; [reflexivity|].
  symmetry. apply Z.ltb_ge. unfold MaxKeySize.
  change (String.length ("exec-" +:+ fmt_d (UnixNano z)))
    with (5 + String.length (fmt_d (UnixNano z)))%nat.
  lia.
Qed.

(** ** The retry loop *)

(** The structural argument of [retryLoop] is the loop condition: started
    with the number of values of [retries] left, the function satisfies the
    unfolding equation of the [for] statement. *)
Lemma retryLoop_unfold fn ctx (task : Task) data retries :
  retryLoop (Z.to_nat (MaxRetry task + 1 - retries)) fn ctx task data retries =
  if retries <=? MaxRetry task then
    (err <- invoke (Task_ID task) fn ctx data;;
     match err with
     | None => ret None
     | Some e =>
         if retries =? MaxRetry task then
           ret (Some ("task " +:+ Task_ID task +:+ " failed after " +:+
                      fmt_d (MaxRetry task) +:+ " retries: " +:+ e))
         else
           time_Sleep (backoff retries);;;
           retryLoop (Z.to_nat (MaxRetry task + 1 - (retries + 1)))
                     fn ctx task data (retries + 1)
     end)
  else
    ret (Some ("task " +:+ Task_ID task +:+ " failed after " +:+
               fmt_d (MaxRetry task) +:+ " retries")).
Proof.
  destruct (Z.leb_spec retries (MaxRetry task)) as [Hle|Hgt].
  - replace (Z.to_nat (MaxRetry task + 1 - retries))
      with (S (Z.to_nat (MaxRetry task + 1 - (retries + 1)))) by lia.
    reflexivity.
  - replace (Z.to_nat (MaxRetry task + 1 - retries)) with O by lia.
    reflexivity.
Qed.

Lemma touches_trace_ext_refl w : touches_trace_ext w w.
Proof. unfold touches_trace_ext. destruct w; reflexivity. Qed.

Lemma touches_trace_ext_trans w1 w2 w3 :
  touches_trace_ext w1 w2 -> touches_trace_ext w2 w3 -> touches_trace_ext w1 w3.
Proof.
  unfold touches_trace_ext. intros H12 H23. rewrite H23 at 1. rewrite H12 at 1.
  destruct w1; reflexivity.
Qed.

Lemma invoke_spec id fn ctx data w :
  invoke id fn ctx data w =
  (fst (fn ctx data (ext w)),
   set_ext (snd (fn ctx data (ext w))) (set_trace (trace w ++ [EvInvoke id]) w)).
Proof.
  unfold invoke, bind, emit. simpl. destruct (fn ctx data (ext w)); reflexivity.
Qed.

Lemma retryLoop_S n fn ctx (task : Task) data retries :
  retryLoop (S n) fn ctx task data retries =
  (err <- invoke (Task_ID task) fn ctx data;;
   match err with
   | None => ret None
   | Some e =>
       if retries =? MaxRetry task then ret (Some (RetriesExhausted task e))
       else time_Sleep (backoff retries);;;
            retryLoop n fn ctx task data (retries + 1)
   end).
Proof. reflexivity. Qed.

Lemma retryLoop_step n fn ctx (task : Task) data retries w :
  retryLoop (S n) fn ctx task data retries w =
  let w1 := set_ext (snd (fn ctx data (ext w)))
              (set_trace (trace w ++ [EvInvoke (Task_ID task)]) w) in
  match fst (fn ctx data (ext w)) with
  | None => (None, w1)
  | Some e =>
      if retries =? MaxRetry task then (Some (RetriesExhausted task e), w1)
      else retryLoop n fn ctx task data (retries + 1)
             (set_trace (trace w1 ++ [EvSleep (backoff retries)]) w1)
  end.
Proof.
  rewrite retryLoop_S. unfold bind at 1. rewrite invoke_spec. cbn zeta.
  destruct (fst (fn ctx data (ext w))); [|reflexivity].
  destruct (retries =? MaxRetry task); reflexivity.
Qed.

Lemma retryLoop_always_fails n fn ctx (task : Task) data retries w :
  always_fails fn ->
  retries + Z.of_nat n = MaxRetry task ->
  exists last w',
    retryLoop (S n) fn ctx task data retries w
      = (Some (RetriesExhausted task last), w') /\
    trace w' = trace w ++ retry_events (Task_ID task) n retries /\
    touches_trace_ext w w'.
Proof.
  intros Hfail. revert retries w.
  induction n as [|n IH]; intros retries w Hn; rewrite retryLoop_S;
    unfold bind at 1; rewrite invoke_spec;
    (destruct (fst (fn ctx data (ext w))) as [e|] eqn:He;
      [|exfalso; eapply Hfail; exact He]).
  - replace (retries =? MaxRetry task) with true by lia.
    eexists e, _. split; [reflexivity|]. split; [reflexivity|].
    unfold touches_trace_ext. destruct w; reflexivity.
  - replace (retries =? MaxRetry task) with false by lia.
    unfold bind at 1, time_Sleep, emit.
    edestruct (IH (retries + 1)) as (last & w' & Hrun & Htr & Hfr); [lia|].
    rewrite Hrun. eexists last, w'. split; [reflexivity|]. split.
    + rewrite Htr. cbn. rewrite <- !app_assoc. reflexivity.
    + eapply touches_trace_ext_trans; [|exact Hfr].
      unfold touches_trace_ext. destruct w; reflexivity.
Qed.

Lemma executeTask_always_fails ctx (task : Task) data w fn :
  taskFunctions w !! Task_ID task = Some fn ->
  always_fails fn ->
  0 <= MaxRetry task ->
  exists last w',
    executeTask ctx task data w = (Some (RetriesExhausted task last), w') /\
    trace w' = trace w
               ++ retry_events (Task_ID task) (Z.to_nat (MaxRetry task)) 0 /\
    touches_trace_ext w w'.
Proof.
  intros Hfn Hfail HR. unfold executeTask. rewrite Hfn.
  replace (Z.to_nat (MaxRetry task + 1)) with (S (Z.to_nat (MaxRetry task)))
    by lia.
  apply retryLoop_always_fails; [exact Hfail|lia].
Qed.

Lemma invocations_retry_events id n retries :
  invocations (retry_events id n retries) = replicate (S n) id.
Proof.
  revert retries. induction n as [|n IH]; intros retries; [reflexivity|].
  cbn [retry_events]. unfold invocations in *. cbn [omap list_omap].
  rewrite IH. reflexivity.
Qed.



Lemma sleeps_retry_events id n retries :
  sleeps (retry_events id n retries)
  = (fun i => backoff (retries + Z.of_nat i)) <$> seq 0 n.
Proof.
  revert retries. induction n as [|n IH]; intros retries; [reflexivity|].
  cbn [retry_events seq]. unfold sleeps in *. cbn [omap list_omap].
  rewrite IH. cbn [fmap list_fmap]. rewrite Z.add_0_r. f_equal.
  rewrite <- fmap_S_seq, <- list_fmap_compose. apply list_fmap_ext.
  intros _ i _. cbn. f_equal. lia.
Qed.


(** ** Frames *)

Lemma touches_job_frame w w' : touches_trace_ext w w' -> job_frame w w'.
Proof. unfold touches_trace_ext, job_frame. intros ->. repeat split. Qed.

Lemma job_frame_refl w : job_frame w w.
Proof. unfold job_frame. repeat split. Qed.

Lemma job_frame_trans w1 w2 w3 :
  job_frame w1 w2 -> job_frame w2 w3 -> job_frame w1 w3.
Proof. unfold job_frame. intuition congruence. Qed.

Lemma retryLoop_frame n fn ctx (task : Task) data retries w :
  touches_trace_ext w (snd (retryLoop n fn ctx task data retries w)).
Proof.
  revert retries w. induction n as [|n IH]; intros retries w.
  - apply touches_trace_ext_refl.
  - rewrite retryLoop_S. unfold bind at 1. rewrite invoke_spec.
    set (w1 := set_ext _ _).
    assert (touches_trace_ext w w1) as H1
      by (unfold touches_trace_ext, w1; destruct w; reflexivity).
    destruct (fst (fn ctx data (ext w))) as [e|]; [|exact H1].
    destruct (retries =? MaxRetry task); [exact H1|].
    unfold bind at 1, time_Sleep, emit.
    eapply touches_trace_ext_trans; [|apply IH].
    eapply touches_trace_ext_trans; [exact H1|].
    unfold touches_trace_ext. destruct w1; reflexivity.
Qed.

Lemma executeTask_frame ctx (task : Task) data w :
  touches_trace_ext w (snd (executeTask ctx task data w)).
Proof.
  unfold executeTask. destruct (taskFunctions w !! Task_ID task).
  - apply retryLoop_frame.
  - apply touches_trace_ext_refl.
Qed.

(** A write of a record either commits or fails with the transaction. *)
Lemma UpdateJobExecution_cases je w :
  UpdateJobExecution je w
    = (None, committed je (set_faults (tail (faults w)) w)) \/
  UpdateJobExecution je w = (Some errTx, set_faults (tail (faults w)) w).
Proof.
  unfold UpdateJobExecution, StoreJobExecution, db_Update, bind, next_fault, ret.
  destruct w as [? ? ? ? ? ? ? ? ? ? ? fl ? ?]; cbn.
  destruct fl as [|[] fl]; cbn; auto.
Qed.

Lemma UpdateJobExecution_ok je w :
  faults w = [] -> UpdateJobExecution je w = (None, committed je w).
Proof.
  intros Hf.
  unfold UpdateJobExecution, StoreJobExecution, db_Update, bind, next_fault, ret.
  rewrite Hf. reflexivity.
Qed.

Lemma update_or_log_cases prefix je w :
  update_or_log prefix je w
    = (tt, committed je (set_faults (tail (faults w)) w)) \/
  update_or_log prefix je w
    = (tt, set_trace (trace w ++ [EvLog (prefix +:+ errTx)])
             (set_faults (tail (faults w)) w)).
Proof.
  unfold update_or_log, bind.
  destruct (UpdateJobExecution_cases je w) as [-> | ->]; cbn; auto.
Qed.

Lemma update_or_log_ok prefix je w :
  faults w = [] -> update_or_log prefix je w = (tt, committed je w).
Proof.
  intros Hf. unfold update_or_log, bind. rewrite UpdateJobExecution_ok by done.
  reflexivity.
Qed.

Lemma update_or_log_frame prefix je w :
  job_frame w (snd (update_or_log prefix je w)).
Proof.
  destruct (update_or_log_cases prefix je w) as [-> | ->];
    unfold job_frame, committed; repeat split.
Qed.

(** ** The task loop, one turn at a time *)

Lemma ExecuteJob_tasks_cons ctx (task : Task) rest je w :
  ExecuteJob_tasks ctx (task :: rest) je w =
  if Done ctx (ext w) then
    ((set_TaskStatus (Task_ID task) TaskStatusFailed
        (set_Status JobStatusFailed je), Some (ctx_Err ctx)), w)
  else
    let je1 := set_TaskStatus (Task_ID task) TaskStatusRunning je in
    let w1 := snd (update_or_log "Failed to update task status to running: "
                                 je1 w) in
    let r := executeTask ctx task (JobData je1) w1 in
    match fst r with
    | Some e =>
        let je2 := set_Status JobStatusFailed
                     (set_TaskStatus (Task_ID task) TaskStatusFailed je1) in
        ((je2, Some ("task " +:+ Task_ID task +:+ " failed: " +:+ e)),
         snd (update_or_log
                "Failed to update job execution after task failure: " je2 (snd r)))
    | None =>
        let je2 := set_TaskStatus (Task_ID task) TaskStatusCompleted je1 in
        ExecuteJob_tasks ctx rest je2
          (snd (update_or_log "Failed to update task status to completed: "
                              je2 (snd r)))
    end.
Proof.
  cbn [ExecuteJob_tasks]. unfold bind at 1, ctx_Done.
  destruct (Done ctx (ext w)); [reflexivity|].
  unfold bind at 1.
  destruct (update_or_log _ _ w) as [[] w1]. cbn [snd].
  unfold bind at 1.
  destruct (executeTask ctx task _ w1) as [[e|] w2]; cbn [fst snd].
  - unfold bind at 1. destruct (update_or_log _ _ w2) as [[] w3]. reflexivity.
  - unfold bind at 1. destruct (update_or_log _ _ w2) as [[] w3]. reflexivity.
Qed.

Lemma ExecuteJob_tasks_frame ctx tasks je w :
  job_frame w (snd (ExecuteJob_tasks ctx tasks je w)).
Proof.
  revert je w. induction tasks as [|task rest IH]; intros je w.
  - apply job_frame_refl.
  - rewrite ExecuteJob_tasks_cons.
    destruct (Done ctx (ext w)); [apply job_frame_refl|]. cbn zeta.
    set (je1 := set_TaskStatus _ TaskStatusRunning je).
    set (w1 := snd (update_or_log _ je1 w)).
    assert (job_frame w w1) as H1 by apply update_or_log_frame.
    assert (job_frame w1 (snd (executeTask ctx task (JobData je1) w1))) as H2
      by (apply touches_job_frame, executeTask_frame).
    destruct (fst (executeTask ctx task (JobData je1) w1)); cbn [snd].
    + eapply job_frame_trans; [exact H1|].
      eapply job_frame_trans; [exact H2|]. apply update_or_log_frame.
    + eapply job_frame_trans; [|apply IH].
      eapply job_frame_trans; [exact H1|].
      eapply job_frame_trans; [exact H2|]. apply update_or_log_frame.
Qed.

(** ** The job state machine: entry and exit *)

Lemma db_View_ok {A} (fn : @BoltDB Data -> result A) w :
  head (faults w) <> Some true ->
  db_View fn w = (fn (db w), set_faults (tail (faults w)) w).
Proof.
  intros Hf. unfold db_View, bind, next_fault, ret.
  destruct w as [? ? ? ? ? ? ? ? ? ? ? fl ? ?]; cbn in *.
  destruct fl as [|[] fl]; cbn in *; first [reflexivity | congruence].
Qed.

Lemma no_fault_in_head n w : no_fault_in (S n) w -> head (faults w) <> Some true.
Proof.
  unfold no_fault_in. destruct (faults w) as [|b fl]; cbn; [done|].
  intros H. inversion H; subst. done.
Qed.

Lemma no_fault_in_tail n w :
  no_fault_in (S n) w -> no_fault_in n (set_faults (tail (faults w)) w).
Proof.
  unfold no_fault_in. destruct (faults w) as [|b fl] eqn:E; cbn.
  - intros _. rewrite take_nil. constructor.
  - intros H. inversion H; subst. done.
Qed.

(** C3: when the stored execution is COMPLETED or FAILED, [ExecuteJob]
    returns [nil] at once: the store (with its queue), the ongoing set, the
    trace of task calls and the outside world are as before; only the read
    transaction has been consumed. *)
Theorem ExecuteJob_terminal_noop ctx id w je :
  job_executions (db w) !! id = Some je ->
  head (faults w) <> Some true ->
  Status je = JobStatusCompleted \/ Status je = JobStatusFailed ->
  ExecuteJob ctx id w = (None, set_faults (tail (faults w)) w) /\
  let w' := snd (ExecuteJob ctx id w) in
  db w' = db w /\ ongoingJobs w' = ongoingJobs w /\ trace w' = trace w /\
  writes w' = writes w /\ ext w' = ext w /\ goroutines w' = goroutines w /\
  workerPool w' = workerPool w.
Proof.
  intros Hje Hf Hst.
  assert (ExecuteJob ctx id w = (None, set_faults (tail (faults w)) w)) as Hrun.
  { unfold ExecuteJob, GetJobExecution, bind at 1.
    rewrite db_View_ok by done. rewrite Hje.
    destruct Hst as [-> | ->]; reflexivity. }
  rewrite Hrun. repeat split.
Qed.

Lemma ExecuteJob_definition_not_found ctx id w je :
  job_executions (db w) !! id = Some je ->
  terminal (Status je) = false ->
  job_definitions (db w) !! DefinitionID je = None ->
  no_fault_in 2 w ->
  ExecuteJob ctx id w
  = (Some "failed to get job definition: job definition not found",
     set_faults (drop 2 (faults w)) w).
Proof.
  intros Hje Hst Hjd Hf.
  unfold ExecuteJob, GetJobExecution, bind at 1.
  rewrite db_View_ok by (eapply no_fault_in_head; exact Hf).
  rewrite Hje, Hst. unfold GetJobDefinition, bind at 1.
  apply no_fault_in_tail in Hf.
  rewrite db_View_ok by (eapply no_fault_in_head; exact Hf).
  cbn [db set_faults]. rewrite Hjd. unfold ret. cbn [faults set_faults].
  f_equal. destruct w as [? ? ? ? ? ? ? ? ? ? ? fl ? ?]; cbn.
  destruct fl as [|? [|? ?]]; reflexivity.
Qed.

(** C10: [EnqueueJob] takes any [definitionID], resolvable or not: it stores
    a new execution with status QUEUED, puts its id in the queue and returns
    the id.  When no definition is stored under [definitionID], a later
    [ExecuteJob] of that execution returns the definition-not-found error
    before the RUNNING transition: the database is left as it was, the
    stored status is still QUEUED, and nothing is written, called or put in
    the ongoing set. *)
Theorem EnqueueJob_unchecked_definition (definitionID : string) data w :
  no_fault_in 2 w ->
  let id := "exec-" +:+ fmt_d (UnixNano (clock w (ticks w))) in
  let execution :=
    {| ID := id; DefinitionID := definitionID; Status := JobStatusQueued;
       StartTime := clock w (S (ticks w)); EndTime := None; JobData := data;
       TaskStatuses := ∅ |} in
  (exists w',
     EnqueueJob definitionID data w = (Ok id, w') /\
     job_executions (db w') !! id = Some execution /\
     id ∈ queue (db w') /\
     job_definitions (db w') = job_definitions (db w)) /\
  (forall ctx w2 je,
     job_executions (db w2) !! id = Some je ->
     Status je = JobStatusQueued ->
     DefinitionID je = definitionID ->
     job_definitions (db w2) !! definitionID = None ->
     no_fault_in 2 w2 ->
     exists w3,
       ExecuteJob ctx id w2
       = (Some "failed to get job definition: job definition not found", w3) /\
       db w3 = db w2 /\ job_executions (db w3) !! id = Some je /\
       writes w3 = writes w2 /\ trace w3 = trace w2 /\
       ongoingJobs w3 = ongoingJobs w2 /\ ext w3 = ext w2).
Proof.
  intros Hf id execution. split.
  - pose proof (valid_key_exec (clock w (ticks w))) as Hk.
    unfold valid_key in Hk. fold id in Hk.
    unfold EnqueueJob, bind, time_Now, StoreJobExecution, BoltDB_EnqueueJob,
      db_Update, bind, next_fault, ret.
    unfold no_fault_in in Hf. fold id.
    destruct w as [b ? ? ? ? ? ? ? ? clk tk fl ? ?];
      cbn [faults clock ticks set_ticks] in *.
    destruct fl as [|b1 [|b2 fl]]; cbn [take] in Hf; cbn -[put_key_error id].
    + fold id. rewrite Hk.
      eexists. split; [reflexivity|]. cbn. split; [apply lookup_insert_eq|].
      split; [set_solver|reflexivity].
    + inversion Hf; subst. cbn -[put_key_error id]. fold id. rewrite Hk.
      eexists. split; [reflexivity|]. cbn. split; [apply lookup_insert_eq|].
      split; [set_solver|reflexivity].
    + inversion Hf as [|? ? ? Hf']; subst. inversion Hf'; subst.
      cbn -[put_key_error id]. fold id. rewrite Hk.
      eexists. split; [reflexivity|]. cbn. split; [apply lookup_insert_eq|].
      split; [set_solver|reflexivity].
  - intros ctx w2 je Hje Hst Hdef Hjd Hf2.
    eexists. split.
    + apply ExecuteJob_definition_not_found with (je := je); try done.
      * rewrite Hst. reflexivity.
      * rewrite Hdef. exact Hjd.
    + cbn. repeat split. exact Hje.
Qed.

Lemma ExecuteJob_tasks_identity ctx tasks je w :
  same_identity je (fst (fst (ExecuteJob_tasks ctx tasks je w))).
Proof.
  revert je w. induction tasks as [|task rest IH]; intros je w.
  - repeat split.
  - rewrite ExecuteJob_tasks_cons.
    destruct (Done ctx (ext w)); [repeat split|]. cbn zeta.
    destruct (fst (executeTask _ _ _ _)); [repeat split|].
    match goal with |- same_identity _ (fst (fst (ExecuteJob_tasks _ _ ?j ?v))) =>
      specialize (IH j v); unfold same_identity in *; cbn in IH end.
    exact IH.
Qed.

Lemma ExecuteJob_body_identity ctx jd je w :
  same_identity je (fst (fst (ExecuteJob_body ctx jd je w))).
Proof.
  unfold ExecuteJob_body, bind at 1.
  pose proof (ExecuteJob_tasks_identity ctx (Tasks jd) je w) as H.
  destruct (ExecuteJob_tasks ctx (Tasks jd) je w) as [[je1 [e|]] w1];
    cbn [fst snd] in *; [exact H|].
  unfold bind.
  destruct (UpdateJobExecution _ w1) as [[e|] w2]; cbn; exact H.
Qed.

Lemma UpdateJobExecution_head_ok je w :
  head (faults w) <> Some true ->
  UpdateJobExecution je w = (None, committed je (set_faults (tail (faults w)) w)).
Proof.
  intros Hf. destruct (UpdateJobExecution_cases je w) as [H|H]; [exact H|].
  exfalso. revert H.
  unfold UpdateJobExecution, StoreJobExecution, db_Update, bind, next_fault, ret.
  destruct (faults w) as [|[] fl]; cbn in *; congruence.
Qed.

(** From the RUNNING transition on, [ExecuteJob] is its body followed by
    its deferred function. *)
Lemma ExecuteJob_running ctx id w je jd :
  job_executions (db w) !! id = Some je ->
  terminal (Status je) = false ->
  job_definitions (db w) !! DefinitionID je = Some jd ->
  no_fault_in 3 w ->
  ExecuteJob ctx id w =
  let r := ExecuteJob_body ctx jd (set_Status JobStatusRunning je)
                           (running_world id je w) in
  (snd (fst r), snd (ExecuteJob_deferred id (fst (fst r)) (snd r))).
Proof.
  intros Hje Hst Hjd Hf.
  unfold ExecuteJob, GetJobExecution, bind at 1.
  rewrite db_View_ok by (eapply no_fault_in_head; exact Hf).
  rewrite Hje, Hst. unfold GetJobDefinition, bind at 1.
  apply no_fault_in_tail in Hf.
  rewrite db_View_ok by (eapply no_fault_in_head; exact Hf).
  cbn [db set_faults]. rewrite Hjd. unfold bind at 1.
  apply no_fault_in_tail in Hf.
  rewrite UpdateJobExecution_head_ok by (eapply no_fault_in_head; exact Hf).
  unfold bind at 1. cbn [fst snd].
  assert (forall v, running_world id je w = v ->
    snd (ongoingJobs_Store id
      (committed (set_Status JobStatusRunning je)
         (set_faults (tail (faults (set_faults (tail (faults (set_faults
            (tail (faults w)) w))) (set_faults (tail (faults w)) w))))
            (set_faults (tail (faults (set_faults (tail (faults w)) w)))
               (set_faults (tail (faults w)) w))))) = v) as Hw.
  { intros v <-. unfold running_world. f_equal.
    destruct w as [? ? ? ? ? ? ? ? ? ? ? fl ? ?]; cbn.
    destruct fl as [|? [|? [|? ?]]]; reflexivity. }
  unfold ongoingJobs_Store at 1.
  unfold ongoingJobs_Store in Hw. cbn [snd] in Hw. rewrite (Hw _ eq_refl).
  unfold bind at 1.
  destruct (ExecuteJob_body _ _ _ _) as [[je_b err] w_b]. cbn [fst snd].
  unfold bind at 1. destruct (ExecuteJob_deferred id je_b w_b) as [[] w']. 
  reflexivity.
Qed.

Lemma ExecuteJob_deferred_spec id je w :
  let w' := snd (ExecuteJob_deferred id je w) in
  (id ∉ ongoingJobs w') /\
  (head (faults w) <> Some true ->
   job_executions (db w') !! ID je
   = Some (set_EndTime (clock w (ticks w)) je)) /\
  (head (tail (faults w)) <> Some true -> id ∉ queue (db w')).
Proof.
  unfold ExecuteJob_deferred, ongoingJobs_Delete, time_Now, update_or_log,
    UpdateJobExecution, StoreJobExecution, RemoveFromQueue, log_if, log_Printf,
    emit, db_Update, bind, next_fault, ret.
  destruct w as [b ? og ? ? ? ? ? ? clk tk fl ? ?]; cbn.
  assert (forall s : gset string, id ∉ s ∖ {[id]}) as Hnotin
    by (intros s; rewrite elem_of_difference, elem_of_singleton; tauto).
  destruct fl as [|[] [|[] fl]]; cbn;
    (split; [apply Hnotin|]); split; intros Hhead; try congruence;
    first [apply lookup_insert_eq | apply Hnotin].
Qed.

(** C4 (amended): once the RUNNING transition is persisted, every exit of
    [ExecuteJob] (whatever the body returns: success, a task failure, a
    cancellation, a failed COMPLETED write) runs the cleanup: the id is
    removed from the ongoing set, the end time is stamped on the record, the
    record is written unless that transaction fails, and the id is removed
    from the queue unless that transaction fails. *)
Theorem ExecuteJob_cleanup_after_running ctx id w je jd :
  job_executions (db w) !! id = Some je ->
  terminal (Status je) = false ->
  job_definitions (db w) !! DefinitionID je = Some jd ->
  no_fault_in 3 w ->
  let r := ExecuteJob_body ctx jd (set_Status JobStatusRunning je)
                           (running_world id je w) in
  let je_b := fst (fst r) in
  let w_b := snd r in
  let w' := snd (ExecuteJob ctx id w) in
  fst (ExecuteJob ctx id w) = snd (fst r) /\
  (id ∉ ongoingJobs w') /\
  (head (faults w_b) <> Some true ->
   job_executions (db w') !! ID je
   = Some (set_EndTime (clock w_b (ticks w_b)) je_b)) /\
  (head (tail (faults w_b)) <> Some true -> id ∉ queue (db w')) /\
  (ID je = id -> head (faults w_b) <> Some true ->
   head (tail (faults w_b)) <> Some true -> cleaned_up id w').
Proof.
  intros Hje Hst Hjd Hf r je_b w_b w'.
  pose proof (ExecuteJob_running ctx id w je jd Hje Hst Hjd Hf) as Hrun.
  cbn zeta in Hrun. fold r in Hrun. fold je_b w_b in Hrun.
  assert (w' = snd (ExecuteJob_deferred id je_b w_b)) as Hw'
    by (unfold w'; rewrite Hrun; reflexivity).
  destruct (ExecuteJob_deferred_spec id je_b w_b) as (Hog & Hst' & Hq).
  assert (ID je_b = ID je) as HID.
  { destruct (ExecuteJob_body_identity ctx jd (set_Status JobStatusRunning je)
                (running_world id je w)) as (H & _). exact H. }
  rewrite HID in Hst'. rewrite <- Hw' in Hog, Hst', Hq.
  split; [rewrite Hrun; reflexivity|].
  split; [exact Hog|]. split; [exact Hst'|]. split; [exact Hq|].
  intros Hid H1 H2. repeat split; [exact Hog|exact (Hq H2)|].
  eexists. split; [rewrite <- Hid; exact (Hst' H1)|]. discriminate.
Qed.

(** ** Runs without store failures *)

Lemma executeTask_always_succeeds ctx (task : Task) data w fn :
  taskFunctions w !! Task_ID task = Some fn ->
  always_succeeds fn ->
  0 <= MaxRetry task ->
  exists w',
    executeTask ctx task data w = (None, w') /\
    trace w' = trace w ++ [EvInvoke (Task_ID task)] /\
    touches_trace_ext w w'.
Proof.
  intros Hfn Hok HR. unfold executeTask. rewrite Hfn.
  replace (Z.to_nat (MaxRetry task + 1)) with (S (Z.to_nat (MaxRetry task)))
    by lia.
  rewrite retryLoop_S. unfold bind. rewrite invoke_spec, Hok.
  eexists. split; [reflexivity|]. split; [reflexivity|].
  unfold touches_trace_ext. destruct w; reflexivity.
Qed.

Lemma set_TaskStatuses_id je : set_TaskStatuses (TaskStatuses je) je = je.
Proof. destruct je; reflexivity. Qed.

Lemma ExecuteJob_tasks_succeeding ctx pre rest je w :
  faults w = [] ->
  (forall e, Done ctx e = false) ->
  Forall (succeeds_in w) pre ->
  exists w1,
    ExecuteJob_tasks ctx (pre ++ rest) je w
    = ExecuteJob_tasks ctx rest
        (set_TaskStatuses (completed_all pre (TaskStatuses je)) je) w1 /\
    faults w1 = [] /\ job_frame w w1 /\
    trace w1 = trace w ++ (EvInvoke <$> (Task_ID <$> pre)).
Proof.
  intros Hf Hctx. revert je w Hf.
  induction pre as [|p pre IH]; intros je w Hf Hpre.
  - exists w. cbn. rewrite set_TaskStatuses_id, app_nil_r.
    split; [reflexivity|]. split; [exact Hf|]. split; [apply job_frame_refl|done].
  - inversion Hpre as [|? ? (HR & fn & Hfn & Hok) Hpre']; subst.
    cbn [app]. rewrite ExecuteJob_tasks_cons, Hctx. cbn zeta.
    rewrite update_or_log_ok by exact Hf. cbn [snd].
    set (je1 := set_TaskStatus (Task_ID p) TaskStatusRunning je).
    destruct (executeTask_always_succeeds ctx p (JobData je1) (committed je1 w) fn)
      as (w2 & Hrun & Htr & Hfr); [exact Hfn|exact Hok|exact HR|].
    rewrite Hrun. cbn [fst snd].
    assert (faults w2 = []) as Hf2 by (rewrite Hfr; exact Hf).
    rewrite update_or_log_ok by exact Hf2. cbn [snd].
    set (je2 := set_TaskStatus (Task_ID p) TaskStatusCompleted je1).
    assert (job_frame w (committed je2 w2)) as Hframe.
    { eapply job_frame_trans; [|eapply job_frame_trans].
      - instantiate (1 := committed je1 w). repeat split.
      - apply touches_job_frame. exact Hfr.
      - repeat split. }
    destruct (IH je2 (committed je2 w2)) as (w3 & Hrun3 & Hf3 & Hfr3 & Htr3).
    { exact Hf2. }
    { eapply Forall_impl; [exact Hpre'|]. intros q (HRq & fq & Hfq & Hokq).
      split; [exact HRq|]. exists fq. split; [|exact Hokq].
      destruct Hframe as (_ & _ & -> & _). exact Hfq. }
    exists w3. split.
    { rewrite Hrun3. f_equal. unfold je2, je1, set_TaskStatus, set_TaskStatuses.
      cbn. rewrite insert_insert_eq. reflexivity. }
    split; [exact Hf3|]. split; [eapply job_frame_trans; eassumption|].
    rewrite Htr3. cbn [trace committed set_writes set_db]. rewrite Htr.
    cbn. rewrite <- app_assoc. reflexivity.
Qed.

Lemma ExecuteJob_tasks_failing ctx (t : Task) post je w fn :
  faults w = [] ->
  (forall e, Done ctx e = false) ->
  taskFunctions w !! Task_ID t = Some fn ->
  always_fails fn ->
  0 <= MaxRetry t ->
  exists last w2,
    let je2 := set_Status JobStatusFailed
                 (set_TaskStatus (Task_ID t) TaskStatusFailed
                    (set_TaskStatus (Task_ID t) TaskStatusRunning je)) in
    ExecuteJob_tasks ctx (t :: post) je w
    = ((je2, Some ("task " +:+ Task_ID t +:+ " failed: " +:+
                   RetriesExhausted t last)), w2) /\
    faults w2 = [] /\ job_frame w w2 /\
    job_executions (db w2) !! ID je = Some je2 /\
    trace w2 = trace w
               ++ retry_events (Task_ID t) (Z.to_nat (MaxRetry t)) 0.
Proof.
  intros Hf Hctx Hfn Hfail HR.
  rewrite ExecuteJob_tasks_cons, Hctx. cbn zeta.
  rewrite update_or_log_ok by exact Hf. cbn [snd].
  set (je1 := set_TaskStatus (Task_ID t) TaskStatusRunning je).
  destruct (executeTask_always_fails ctx t (JobData je1) (committed je1 w) fn)
    as (last & w1 & Hrun & Htr & Hfr); [exact Hfn|exact Hfail|exact HR|].
  rewrite Hrun. cbn [fst snd].
  assert (faults w1 = []) as Hf1 by (rewrite Hfr; exact Hf).
  rewrite update_or_log_ok by exact Hf1. cbn [snd].
  exists last. eexists. cbn zeta. split; [reflexivity|].
  split; [exact Hf1|]. split.
  { eapply job_frame_trans; [|eapply job_frame_trans].
    - instantiate (1 := committed je1 w). repeat split.
    - apply touches_job_frame. exact Hfr.
    - repeat split. }
  split; [apply lookup_insert_eq|].
  cbn [trace committed set_writes set_db]. rewrite Htr. reflexivity.
Qed.

Lemma completed_all_lookup_notin pre (ts : gmap string TaskStatus) k :
  k ∉ Task_ID <$> pre -> completed_all pre ts !! k = ts !! k.
Proof.
  revert ts. induction pre as [|p pre IH]; intros ts Hk; [reflexivity|].
  cbn in *. apply not_elem_of_cons in Hk as [Hne Hk].
  unfold completed_all in *. cbn. rewrite IH by exact Hk.
  apply lookup_insert_ne. congruence.
Qed.

Lemma completed_all_lookup_in pre (ts : gmap string TaskStatus) k :
  k ∈ Task_ID <$> pre -> completed_all pre ts !! k = Some TaskStatusCompleted.
Proof.
  revert ts. induction pre as [|q pre IH]; intros ts Hk; [inversion Hk|].
  unfold completed_all in *. cbn in *.
  destruct (decide (k ∈ Task_ID <$> pre)) as [Hin|Hnin]; [apply IH; exact Hin|].
  apply elem_of_cons in Hk as [-> | Hk]; [|contradiction].
  fold (completed_all pre (<[Task_ID q:=TaskStatusCompleted]> ts)).
  rewrite completed_all_lookup_notin by exact Hnin. apply lookup_insert_eq.
Qed.

Lemma invocations_invoke (ids : list string) :
  invocations (EvInvoke <$> ids) = ids.
Proof.
  induction ids as [|x l IH]; [reflexivity|].
  unfold invocations in *. cbn. rewrite IH. reflexivity.
Qed.

Lemma ExecuteJob_deferred_ok id je w :
  faults w = [] ->
  let je' := set_EndTime (clock w (ticks w)) je in
  ExecuteJob_deferred id je w
  = (tt, set_db (set_queue (queue (db w) ∖ {[id]})
                   (put_job_execution je' (db w)))
           (set_writes (writes w ++ [je'])
              (set_ticks (S (ticks w))
                 (set_ongoingJobs (ongoingJobs w ∖ {[id]}) w)))).
Proof.
  intros Hf.
  unfold ExecuteJob_deferred, ongoingJobs_Delete, time_Now, update_or_log,
    UpdateJobExecution, StoreJobExecution, RemoveFromQueue, log_if,
    db_Update, bind, next_fault, ret.
  destruct w as [? ? ? ? ? ? ? ? ? ? ? fl ? ?]; cbn in *. subst fl. reflexivity.
Qed.

(** C2: when a task of the sequence fails after its retries are exhausted
    (the tasks before it succeed, the run is not cancelled and the store
    works), [ExecuteJob] returns that task's failure, the persisted execution
    is FAILED with the task FAILED and the tasks before it COMPLETED, the
    statuses of all other tasks are untouched, and the calls made are those
    of the tasks before it, once each, followed by the R + 1 attempts of the
    failing task: no later task is called. *)
Theorem ExecuteJob_fail_fast ctx id w je jd pre (t : Task) post fn :
  job_executions (db w) !! id = Some je ->
  ID je = id ->
  terminal (Status je) = false ->
  job_definitions (db w) !! DefinitionID je = Some jd ->
  Tasks jd = pre ++ t :: post ->
  faults w = [] ->
  (forall e, Done ctx e = false) ->
  Forall (succeeds_in w) pre ->
  taskFunctions w !! Task_ID t = Some fn ->
  always_fails fn ->
  0 <= MaxRetry t ->
  exists last w' je' evs,
    ExecuteJob ctx id w
    = (Some ("task " +:+ Task_ID t +:+ " failed: " +:+ RetriesExhausted t last),
       w') /\
    job_executions (db w') !! id = Some je' /\
    Status je' = JobStatusFailed /\
    TaskStatuses je' !! Task_ID t = Some TaskStatusFailed /\
    (forall p, p ∈ pre -> Task_ID p <> Task_ID t ->
               TaskStatuses je' !! Task_ID p = Some TaskStatusCompleted) /\
    (forall k, k ∉ Task_ID <$> (pre ++ [t]) ->
               TaskStatuses je' !! k = TaskStatuses je !! k) /\
    trace w' = trace w ++ evs /\
    evs = (EvInvoke <$> (Task_ID <$> pre))
          ++ retry_events (Task_ID t) (Z.to_nat (MaxRetry t)) 0 /\
    invocations evs
    = (Task_ID <$> pre) ++ replicate (Z.to_nat (MaxRetry t + 1)) (Task_ID t).
Proof.
  intros Hje HID Hst Hjd Htasks Hf Hctx Hpre Hfn Hfail HR.
  assert (no_fault_in 3 w) as Hnf by (unfold no_fault_in; rewrite Hf; constructor).
  rewrite (ExecuteJob_running ctx id w je jd Hje Hst Hjd Hnf). cbn zeta.
  set (je_r := set_Status JobStatusRunning je).
  set (w_r := running_world id je w).
  assert (faults w_r = []) as Hfr by (unfold w_r, running_world; cbn; rewrite Hf; done).
  assert (taskFunctions w_r = taskFunctions w) as Htf by reflexivity.
  assert (trace w_r = trace w) as Htr_r by reflexivity.
  destruct (ExecuteJob_tasks_succeeding ctx pre (t :: post) je_r w_r Hfr Hctx)
    as (w1 & Hrun1 & Hf1 & Hfr1 & Htr1).
  { eapply Forall_impl; [exact Hpre|]. intros q Hq. exact Hq. }
  set (je1 := set_TaskStatuses (completed_all pre (TaskStatuses je_r)) je_r) in *.
  destruct (ExecuteJob_tasks_failing ctx t post je1 w1 fn Hf1 Hctx)
    as (last & w2 & Hrun2 & Hf2 & Hfr2 & Hst2 & Htr2);
    [destruct Hfr1 as (_ & _ & -> & _); exact Hfn|exact Hfail|exact HR|].
  cbn zeta in Hrun2.
  assert (ExecuteJob_body ctx jd je_r w_r
          = ((set_Status JobStatusFailed
                (set_TaskStatus (Task_ID t) TaskStatusFailed
                   (set_TaskStatus (Task_ID t) TaskStatusRunning je1)),
              Some ("task " +:+ Task_ID t +:+ " failed: " +:+
                    RetriesExhausted t last)), w2)) as Hbody.
  { unfold ExecuteJob_body, bind. rewrite Htasks, Hrun1, Hrun2. reflexivity. }
  rewrite Hbody. cbn [fst snd].
  rewrite (ExecuteJob_deferred_ok id _ w2 Hf2). cbn [fst snd].
  eexists last, _, _, _. split; [reflexivity|].
  split; [cbn; rewrite <- HID; apply lookup_insert_eq|].
  split; [reflexivity|]. split; [cbn; apply lookup_insert_eq|].
  split.
  { intros p Hp Hne. cbn. rewrite !lookup_insert_ne by congruence.
    apply completed_all_lookup_in, list_elem_of_fmap. eauto. }
  split.
  { intros k Hk. rewrite fmap_app in Hk. cbn in Hk.
    apply not_elem_of_app in Hk as [Hk1 Hk2].
    apply not_elem_of_cons in Hk2 as [Hk2 _]. cbn.
    rewrite !lookup_insert_ne by congruence.
    apply completed_all_lookup_notin. exact Hk1. }
  split.
  { cbn. rewrite Htr2, Htr1, Htr_r, <- app_assoc. reflexivity. }
  split; [reflexivity|].
  unfold invocations. rewrite omap_app.
  fold (invocations (retry_events (Task_ID t) (Z.to_nat (MaxRetry t)) 0)).
  rewrite invocations_retry_events. f_equal.
  - apply invocations_invoke.
  - f_equal. lia.
Qed.

(** ** Task statuses over time *)

Lemma status_le_refl a : status_le a a.
Proof. left. reflexivity. Qed.

Lemma status_le_trans a b c : status_le a b -> status_le b c -> status_le a c.
Proof. unfold status_le. intros [-> | H1] [-> | H2]; auto. right. lia. Qed.

Lemma statuses_le_refl ts : statuses_le ts ts.
Proof. intros k. apply status_le_refl. Qed.

Lemma statuses_le_trans ts1 ts2 ts3 :
  statuses_le ts1 ts2 -> statuses_le ts2 ts3 -> statuses_le ts1 ts3.
Proof. intros H1 H2 k. eapply status_le_trans; [apply H1|apply H2]. Qed.

Lemma status_at_insert (ts : gmap string TaskStatus) k s k' :
  status_at (<[k := s]> ts) k' = if decide (k = k') then s else status_at ts k'.
Proof.
  unfold status_at. rewrite lookup_insert. destruct (decide (k = k')); reflexivity.
Qed.

Lemma statuses_le_insert (ts : gmap string TaskStatus) k s :
  status_le (status_at ts k) s -> statuses_le ts (<[k := s]> ts).
Proof.
  intros H k'. rewrite status_at_insert.
  destruct (decide (k = k')) as [<- |]; [exact H|apply status_le_refl].
Qed.

Lemma chain_nil a b :
  statuses_le a b -> chain a ([] : list (@JobExecution Data)) b.
Proof. intros H. split; [exact H|]. split; constructor. Qed.

Lemma chain_one a (x : @JobExecution Data) b :
  statuses_le a (TaskStatuses x) -> statuses_le (TaskStatuses x) b ->
  chain a [x] b.
Proof.
  intros H1 H2. split; [eapply statuses_le_trans; eassumption|].
  split; [constructor; [split; assumption|constructor]|].
  unfold monotone_history. cbn. constructor; constructor.
Qed.

Lemma chain_app a (l1 : list (@JobExecution Data)) b l2 c :
  chain a l1 b -> chain b l2 c -> chain a (l1 ++ l2) c.
Proof.
  intros (Hab & H1 & S1) (Hbc & H2 & S2).
  split; [eapply statuses_le_trans; eassumption|]. split.
  - apply Forall_app. split.
    + eapply Forall_impl; [exact H1|]. intros x [Hx1 Hx2].
      split; [exact Hx1|eapply statuses_le_trans; eassumption].
    + eapply Forall_impl; [exact H2|]. intros x [Hx1 Hx2].
      split; [eapply statuses_le_trans; eassumption|exact Hx2].
  - unfold monotone_history in *. rewrite fmap_app.
    apply StronglySorted_app. split; [|split; assumption].
    intros x1 x2 Hx1 Hx2.
    apply list_elem_of_fmap in Hx1 as (y1 & -> & Hy1).
    apply list_elem_of_fmap in Hx2 as (y2 & -> & Hy2).
    rewrite Forall_forall in H1, H2.
    eapply statuses_le_trans; [apply H1|apply H2]; assumption.
Qed.

Lemma chain_history a (new : list (@JobExecution Data)) b :
  chain a new b -> monotone_history (a :: (TaskStatuses <$> new)).
Proof.
  intros (_ & H & S). unfold monotone_history in *. constructor; [exact S|].
  apply Forall_fmap. eapply Forall_impl; [exact H|]. intros x [Hx _]. exact Hx.
Qed.

(** What a best-effort write adds to the write log. *)
Lemma update_or_log_writes prefix je w :
  exists l, writes (snd (update_or_log prefix je w)) = writes w ++ l /\
            (l = [] \/ l = [je]).
Proof.
  destruct (update_or_log_cases prefix je w) as [-> | ->]; cbn.
  - exists [je]. auto.
  - exists []. rewrite app_nil_r. auto.
Qed.

Lemma update_or_log_chain prefix je w a b :
  statuses_le a (TaskStatuses je) -> statuses_le (TaskStatuses je) b ->
  exists l, writes (snd (update_or_log prefix je w)) = writes w ++ l /\
            Forall (fun x => ID x = ID je) l /\ chain a l b.
Proof.
  intros Ha Hb.
  destruct (update_or_log_writes prefix je w) as (l & Hw & [-> | ->]).
  - exists []. split; [exact Hw|]. split; [constructor|].
    apply chain_nil. eapply statuses_le_trans; eassumption.
  - exists [je]. split; [exact Hw|]. split; [repeat constructor|].
    apply chain_one; assumption.
Qed.

Lemma executeTask_writes ctx (task : Task) data w :
  writes (snd (executeTask ctx task data w)) = writes w.
Proof.
  pose proof (executeTask_frame ctx task data w) as H.
  unfold touches_trace_ext in H. rewrite H. reflexivity.
Qed.

Lemma ExecuteJob_tasks_chain ctx tasks je w :
  NoDup (Task_ID <$> tasks) ->
  none_finished tasks (TaskStatuses je) ->
  let r := ExecuteJob_tasks ctx tasks je w in
  exists new,
    writes (snd r) = writes w ++ new /\
    Forall (fun x => ID x = ID je) new /\
    chain (TaskStatuses je) new (TaskStatuses (fst (fst r))).
Proof.
  revert je w. induction tasks as [|t rest IH]; intros je w Hnd Hnf; cbn zeta.
  - exists []. rewrite app_nil_r. split; [reflexivity|]. split; [constructor|].
    apply chain_nil, statuses_le_refl.
  - cbn in Hnd. apply NoDup_cons in Hnd as [Hk Hnd].
    assert (rank (status_at (TaskStatuses je) (Task_ID t)) <= 1)%nat as Ht
      by (apply Hnf; left).
    rewrite ExecuteJob_tasks_cons.
    destruct (Done ctx (ext w)).
    { exists []. rewrite app_nil_r. split; [reflexivity|]. split; [constructor|].
      apply chain_nil. cbn. apply statuses_le_insert. right. cbn. lia. }
    cbn zeta.
    set (je1 := set_TaskStatus (Task_ID t) TaskStatusRunning je).
    assert (statuses_le (TaskStatuses je) (TaskStatuses je1)) as H01.
    { cbn. apply statuses_le_insert.
      destruct (status_at (TaskStatuses je) (Task_ID t)); cbn in Ht;
        first [left; reflexivity | right; cbn; lia | lia]. }
    destruct (update_or_log_chain "Failed to update task status to running: "
                je1 w (TaskStatuses je) (TaskStatuses je1) H01
                (statuses_le_refl _)) as (l1 & Hw1 & Hid1 & Hc1).
    set (w1 := snd (update_or_log _ je1 w)) in *.
    pose proof (executeTask_writes ctx t (JobData je1) w1) as Hw2.
    set (r := executeTask ctx t (JobData je1) w1) in *.
    assert (forall s, s = TaskStatusCompleted \/ s = TaskStatusFailed ->
              statuses_le (TaskStatuses je1)
                (<[Task_ID t := s]> (TaskStatuses je1))) as H12.
    { intros s Hs. apply statuses_le_insert. cbn. rewrite status_at_insert.
      destruct (decide (Task_ID t = Task_ID t)); [|done].
      right. destruct Hs as [-> | ->]; cbn; lia. }
    destruct (fst r) as [e|].
    + set (je2 := set_Status JobStatusFailed
                    (set_TaskStatus (Task_ID t) TaskStatusFailed je1)).
      destruct (update_or_log_chain
                  "Failed to update job execution after task failure: "
                  je2 (snd r) (TaskStatuses je1) (TaskStatuses je2))
        as (l2 & Hw3 & Hid2 & Hc2);
        [apply H12; auto|apply statuses_le_refl|].
      exists (l1 ++ l2). cbn [fst snd].
      split; [rewrite Hw3, Hw2, Hw1, app_assoc; reflexivity|].
      split; [apply Forall_app; split; assumption|].
      eapply chain_app; eassumption.
    + set (je2 := set_TaskStatus (Task_ID t) TaskStatusCompleted je1).
      destruct (update_or_log_chain
                  "Failed to update task status to completed: "
                  je2 (snd r) (TaskStatuses je1) (TaskStatuses je2))
        as (l2 & Hw3 & Hid2 & Hc2);
        [apply H12; auto|apply statuses_le_refl|].
      set (w3 := snd (update_or_log _ je2 (snd r))) in *.
      destruct (IH je2 w3 Hnd) as (l3 & Hw4 & Hid3 & Hc3).
      { intros t' Ht'. cbn. rewrite !status_at_insert.
        destruct (decide (Task_ID t = Task_ID t')) as [Heq|Hne].
        - exfalso. apply Hk. rewrite Heq. apply list_elem_of_fmap. eauto.
        - apply Hnf. right. exact Ht'. }
      cbn zeta in Hw4, Hc3.
      exists (l1 ++ l2 ++ l3).
      split; [rewrite Hw4, Hw3, Hw2, Hw1, !app_assoc; reflexivity|].
      split; [repeat (apply Forall_app; split); assumption|].
      eapply chain_app; [exact Hc1|]. eapply chain_app; eassumption.
Qed.

(** [ExecuteJob] either leaves before the RUNNING transition is persisted,
    having consumed transactions only, or is its body and deferred function
    run from [running_world]. *)
Lemma ExecuteJob_cases ctx id w :
  (exists e fl, ExecuteJob ctx id w = (e, set_faults fl w)) \/
  (exists je jd,
     job_executions (db w) !! id = Some je /\
     terminal (Status je) = false /\
     job_definitions (db w) !! DefinitionID je = Some jd /\
     no_fault_in 3 w /\
     ExecuteJob ctx id w =
     let r := ExecuteJob_body ctx jd (set_Status JobStatusRunning je)
                              (running_world id je w) in
     (snd (fst r), snd (ExecuteJob_deferred id (fst (fst r)) (snd r)))).
Proof.
  destruct (decide (no_fault_in 3 w)) as [Hnf|Hnf].
  - destruct (job_executions (db w) !! id) as [je|] eqn:Hje.
    + destruct (terminal (Status je)) eqn:Hst.
      * left. unfold ExecuteJob, GetJobExecution, bind at 1.
        rewrite db_View_ok by (eapply no_fault_in_head; exact Hnf).
        rewrite Hje, Hst. eauto.
      * destruct (job_definitions (db w) !! DefinitionID je) as [jd|] eqn:Hjd.
        -- right. exists je, jd. repeat (split; [done|]).
           apply ExecuteJob_running; assumption.
        -- left. eexists _, _.
           apply ExecuteJob_definition_not_found with (je := je); try done.
           unfold no_fault_in in *. destruct (faults w) as [|? [|? [|? ?]]];
             cbn in *; try done.
           inversion Hnf as [|? ? ? H2]; subst. inversion H2 as [|? ? ? H3]; subst.
           repeat constructor; done.
    + left. unfold ExecuteJob, GetJobExecution, bind at 1.
      rewrite db_View_ok by (eapply no_fault_in_head; exact Hnf).
      rewrite Hje. eauto.
  - left. unfold no_fault_in in Hnf.
    unfold ExecuteJob, GetJobExecution, GetJobDefinition, UpdateJobExecution,
      StoreJobExecution, db_View, db_Update, bind, next_fault, ret.
    destruct w as [b ? ? ? ? ? ? ? ? ? ? fl ? ?]; cbn in *.
    destruct fl as [|[] fl]; cbn in *.
    { exfalso. apply Hnf. constructor. }
    { eauto. }
    destruct (job_executions b !! id) as [je|]; [|eauto].
    destruct (terminal (Status je)); [eauto|].
    destruct fl as [|[] fl]; cbn in *.
    { exfalso. apply Hnf. repeat constructor. }
    { eauto. }
    destruct (job_definitions b !! DefinitionID je) as [jd|]; [|eauto].
    destruct fl as [|[] fl]; cbn in *.
    { exfalso. apply Hnf. repeat constructor. }
    { eauto. }
    exfalso. apply Hnf. repeat constructor.
Qed.

Lemma ExecuteJob_body_chain ctx jd je w :
  NoDup (Task_ID <$> Tasks jd) ->
  none_finished (Tasks jd) (TaskStatuses je) ->
  let r := ExecuteJob_body ctx jd je w in
  exists new,
    writes (snd r) = writes w ++ new /\
    Forall (fun x => ID x = ID je) new /\
    chain (TaskStatuses je) new (TaskStatuses (fst (fst r))).
Proof.
  intros Hnd Hnf. cbn zeta.
  destruct (ExecuteJob_tasks_chain ctx (Tasks jd) je w Hnd Hnf)
    as (l1 & Hw1 & Hid1 & Hc1). cbn zeta in *.
  pose proof (ExecuteJob_tasks_identity ctx (Tasks jd) je w) as (HID & _).
  destruct (ExecuteJob_tasks ctx (Tasks jd) je w) as [[je1 ex] w1] eqn:Hloop.
  cbn [fst snd] in *.
  assert (ExecuteJob_body ctx jd je w =
          match ex with
          | Some e => ((je1, Some e), w1)
          | None =>
              let je2 := set_Status JobStatusCompleted je1 in
              match UpdateJobExecution je2 w1 with
              | (Some e, w2) =>
                  ((je2, Some ("failed to update job execution status to completed: "
                               +:+ e)), w2)
              | (None, w2) => ((je2, None), w2)
              end
          end) as ->.
  { unfold ExecuteJob_body, bind. rewrite Hloop. cbn [fst snd].
    destruct ex; [reflexivity|].
    destruct (UpdateJobExecution _ w1) as [[?|] ?]; reflexivity. }
  destruct ex as [e|].
  - exists l1. auto.
  - cbn zeta.
    destruct (UpdateJobExecution_cases (set_Status JobStatusCompleted je1) w1)
      as [-> | ->]; cbn [fst snd].
    + exists (l1 ++ [set_Status JobStatusCompleted je1]).
      split; [cbn; rewrite Hw1, app_assoc; reflexivity|].
      split; [apply Forall_app; split; [exact Hid1|repeat constructor; exact HID]|].
      eapply chain_app; [exact Hc1|]. apply chain_one; apply statuses_le_refl.
    + exists l1. auto.
Qed.

Lemma ExecuteJob_deferred_chain id je w :
  exists l,
    writes (snd (ExecuteJob_deferred id je w)) = writes w ++ l /\
    Forall (fun x => ID x = ID je) l /\
    chain (TaskStatuses je) l (TaskStatuses je).
Proof.
  unfold ExecuteJob_deferred, ongoingJobs_Delete, time_Now, update_or_log,
    UpdateJobExecution, StoreJobExecution, RemoveFromQueue, log_if, log_Printf,
    emit, db_Update, bind, next_fault, ret.
  destruct w as [b ? og ? ? ? ? ? ? clk tk fl ? wr]; cbn.
  destruct fl as [|[] [|[] fl]]; cbn;
    first [ exists []; rewrite app_nil_r; split; [reflexivity|];
            split; [constructor|apply chain_nil, statuses_le_refl]
          | eexists [_]; split; [reflexivity|];
            split; [repeat constructor|apply chain_one; apply statuses_le_refl] ].
Qed.

(** C8 (amended): within one run of [ExecuteJob] on an execution none of
    whose tasks is recorded as COMPLETED or FAILED yet (every first run is
    one), over a definition with distinct task ids, the persisted status of
    every task never goes back in the order PENDING < RUNNING < {COMPLETED,
    FAILED}: the stored statuses followed by the statuses of the successive
    writes of the run form a monotone history, whatever the task
    implementations, the cancellation and the store failures are. *)
Theorem ExecuteJob_task_status_monotone ctx id w je :
  job_executions (db w) !! id = Some je ->
  (forall jd, job_definitions (db w) !! DefinitionID je = Some jd ->
     NoDup (Task_ID <$> Tasks jd) /\
     none_finished (Tasks jd) (TaskStatuses je)) ->
  exists new,
    writes (snd (ExecuteJob ctx id w)) = writes w ++ new /\
    Forall (fun x => ID x = ID je) new /\
    monotone_history (TaskStatuses je :: (TaskStatuses <$> new)).
Proof.
  intros Hje Hjd.
  destruct (ExecuteJob_cases ctx id w)
    as [(e & fl & ->) | (je' & jd & Hje' & Hst & Hdef & Hnf & ->)].
  - exists []. cbn. rewrite app_nil_r. split; [reflexivity|].
    split; [constructor|]. repeat constructor.
  - assert (je' = je) as -> by congruence.
    destruct (Hjd jd Hdef) as [Hnd Hfin]. cbn zeta.
    set (je_r := set_Status JobStatusRunning je).
    destruct (ExecuteJob_body_chain ctx jd je_r (running_world id je w) Hnd Hfin)
      as (l1 & Hw1 & Hid1 & Hc1). cbn zeta in *.
    set (r := ExecuteJob_body ctx jd je_r (running_world id je w)) in *.
    destruct (ExecuteJob_deferred_chain id (fst (fst r)) (snd r))
      as (l2 & Hw2 & Hid2 & Hc2).
    pose proof (ExecuteJob_body_identity ctx jd je_r (running_world id je w))
      as (HID & _). fold r in HID.
    exists ([je_r] ++ l1 ++ l2). cbn [snd].
    split; [rewrite Hw2, Hw1; cbn; rewrite <- !app_assoc; reflexivity|].
    split.
    { repeat (apply Forall_app; split); [repeat constructor|exact Hid1|].
      eapply Forall_impl; [exact Hid2|]. intros x ->. exact HID. }
    eapply chain_history. eapply chain_app.
    + apply chain_one; apply statuses_le_refl.
    + eapply chain_app; [exact Hc1|exact Hc2].
Qed.

(** ** The queue *)




Lemma DequeueJob_ok w :
  faults w = [] ->
  DequeueJob w =
  match head (bucket_keys (queue (db w))) with
  | None => (Err errQueueEmpty, w)
  | Some k => (Ok k, set_db (set_queue (queue (db w) ∖ {[k]}) (db w)) w)
  end.
Proof.
  intros Hf. unfold DequeueJob, bind, next_fault, ret. rewrite Hf. reflexivity.
Qed.

Lemma BoltDB_EnqueueJob_ok id w :
  faults w = [] ->
  valid_key id ->
  BoltDB_EnqueueJob id w
  = (None, set_db (set_queue ({[id]} ∪ queue (db w)) (db w)) w).
Proof.
  intros Hf Hk. unfold BoltDB_EnqueueJob, db_Update, bind, next_fault, ret.
  rewrite Hf, Hk. reflexivity.
Qed.


(** Whatever the ids are, a dequeue takes the least key of the bucket. *)
Lemma bucket_keys_head_least (keys : gset string) k :
  head (bucket_keys keys) = Some k ->
  k ∈ keys /\ forall x, x ∈ keys -> String.le k x.
Proof.
  unfold bucket_keys.
  pose proof (merge_sort_Permutation String.le (elements keys)) as Hperm.
  pose proof (StronglySorted_merge_sort String.le (elements keys)) as Hsort.
  destruct (merge_sort String.le (elements keys)) as [|k' l]; [discriminate|].
  cbn. intros [= ->]. apply StronglySorted_inv in Hsort as [_ Hall]. split.
  - apply elem_of_elements. rewrite <- Hperm. left.
  - intros x Hx. apply elem_of_elements in Hx. rewrite <- Hperm in Hx.
    apply elem_of_cons in Hx as [-> | Hx]; [reflexivity|].
    rewrite Forall_forall in Hall. apply Hall. exact Hx.
Qed.

Lemma DequeueJob_least_key w k w' :
  faults w = [] ->
  DequeueJob w = (Ok k, w') ->
  k ∈ queue (db w) /\
  (forall x, x ∈ queue (db w) -> String.le k x) /\
  queue (db w') = queue (db w) ∖ {[k]}.
Proof.
  intros Hf. rewrite DequeueJob_ok by exact Hf.
  destruct (head (bucket_keys (queue (db w)))) as [k'|] eqn:Hk; [|discriminate].
  intros [= -> <-]. apply bucket_keys_head_least in Hk as [Hin Hle].
  split; [exact Hin|]. split; [exact Hle|reflexivity].
Qed.


(** ** The scheduler on an empty queue *)

Lemma DequeueJob_cases w :
  DequeueJob w =
  if decide (head (faults w) = Some true) then
    (Err errTx, set_faults (tail (faults w)) w)
  else
    match head (bucket_keys (queue (db w))) with
    | None => (Err errQueueEmpty, set_faults (tail (faults w)) w)
    | Some k =>
        (Ok k, set_db (set_queue (queue (db w) ∖ {[k]}) (db w))
                 (set_faults (tail (faults w)) w))
    end.
Proof.
  unfold DequeueJob, bind, next_fault, ret.
  destruct w as [b ? ? ? ? ? ? ? ? ? ? fl ? ?]; cbn.
  destruct fl as [|[] fl]; cbn;
    destruct (head (bucket_keys (queue b))); reflexivity.
Qed.

Lemma bucket_keys_nil (keys : gset string) :
  bucket_keys keys = [] <-> keys = ∅.
Proof.
  unfold bucket_keys. split.
  - intros H. apply leibniz_equiv, elements_empty_iff.
    apply Permutation_nil_r. rewrite <- H. symmetry.
    apply merge_sort_Permutation.
  - intros ->. rewrite elements_empty. reflexivity.
Qed.

(** C6: [DequeueJob] on an empty queue fails with the message "queue is
    empty"; among the errors of [DequeueJob] that message stands for the
    empty queue and for nothing else (a failed transaction carries another
    one); the queue loop answers it, and only it, by sleeping one second and
    starting its next turn, without logging anything or dispatching. *)
Theorem processQueue_waits_on_empty_queue w :
  stop w = false ->
  queue (db w) = ∅ ->
  head (faults w) <> Some true ->
  let w1 := set_faults (tail (faults w)) w in
  DequeueJob w = (Err errQueueEmpty, w1) /\
  (forall v msg v1,
     DequeueJob v = (Err msg, v1) ->
     (msg = errQueueEmpty <->
      queue (db v) = ∅ /\ head (faults v) <> Some true)) /\
  processQueue_iteration w
  = (LoopContinue, set_trace (trace w ++ [EvSleep Second]) w1) /\
  (forall v msg v1,
     stop v = false ->
     DequeueJob v = (Err msg, v1) ->
     msg <> errQueueEmpty ->
     processQueue_iteration v
     = (LoopContinue,
        set_trace (trace v1 ++ [EvLog ("Error dequeuing job: " +:+ msg)]) v1)).
Proof.
  intros Hstop Hq Hf w1.
  assert (DequeueJob w = (Err errQueueEmpty, w1)) as Hdq.
  { rewrite DequeueJob_cases. destruct (decide _) as [|_]; [done|].
    rewrite Hq. reflexivity. }
  split; [exact Hdq|]. split.
  { intros v msg v1. rewrite DequeueJob_cases.
    destruct (decide (head (faults v) = Some true)) as [Hv|Hv].
    - intros [= <- <-]. split; [discriminate|]. intros [_ ?]. done.
    - destruct (head (bucket_keys (queue (db v)))) as [k|] eqn:Hk; [discriminate|].
      intros [= <- <-]. split; [|reflexivity]. intros _. split; [|exact Hv].
      apply bucket_keys_nil. destruct (bucket_keys (queue (db v))); [done|].
      discriminate. }
  split.
  { unfold processQueue_iteration. rewrite Hstop. unfold bind. rewrite Hdq.
    reflexivity. }
  intros v msg v1 Hsv Hdv Hne.
  unfold processQueue_iteration. rewrite Hsv. unfold bind. rewrite Hdv.
  destruct (String.eqb_spec msg "queue is empty") as [->|_]; [done|].
  reflexivity.
Qed.

(** ** Runs that differ in the recorded statuses only *)

Ltac sim_solve :=
  unfold same_but_executions, same_job, same_identity in *; cbn;
  intuition congruence.

Lemma UpdateJobExecution_eq je w :
  UpdateJobExecution je w =
  if decide (head (faults w) = Some true) then
    (Some errTx, set_faults (tail (faults w)) w)
  else (None, committed je (set_faults (tail (faults w)) w)).
Proof.
  unfold UpdateJobExecution, StoreJobExecution, db_Update, bind, next_fault, ret.
  destruct w as [? ? ? ? ? ? ? ? ? ? ? fl ? ?]; cbn.
  destruct fl as [|[] fl]; reflexivity.
Qed.

Lemma update_or_log_eq prefix je w :
  update_or_log prefix je w =
  if decide (head (faults w) = Some true) then
    (tt, set_trace (trace w ++ [EvLog (prefix +:+ errTx)])
           (set_faults (tail (faults w)) w))
  else (tt, committed je (set_faults (tail (faults w)) w)).
Proof.
  unfold update_or_log, bind. rewrite UpdateJobExecution_eq.
  destruct (decide _); reflexivity.
Qed.

Lemma sim_update_or_log prefix je1 je2 w1 w2 :
  same_but_executions w1 w2 ->
  same_but_executions (snd (update_or_log prefix je1 w1))
                      (snd (update_or_log prefix je2 w2)).
Proof.
  intros Hs. rewrite !update_or_log_eq.
  assert (faults w1 = faults w2) as Hf by (unfold same_but_executions in Hs; tauto).
  rewrite Hf. destruct (decide _); sim_solve.
Qed.

Lemma sim_UpdateJobExecution je1 je2 w1 w2 :
  same_but_executions w1 w2 ->
  fst (UpdateJobExecution je1 w1) = fst (UpdateJobExecution je2 w2) /\
  same_but_executions (snd (UpdateJobExecution je1 w1))
                      (snd (UpdateJobExecution je2 w2)).
Proof.
  intros Hs. rewrite !UpdateJobExecution_eq.
  assert (faults w1 = faults w2) as Hf by (unfold same_but_executions in Hs; tauto).
  rewrite Hf. destruct (decide _); (split; [reflexivity|]);
    sim_solve.
Qed.

Lemma sim_retryLoop n fn ctx (task : Task) data retries w1 w2 :
  same_but_executions w1 w2 ->
  fst (retryLoop n fn ctx task data retries w1)
  = fst (retryLoop n fn ctx task data retries w2) /\
  same_but_executions (snd (retryLoop n fn ctx task data retries w1))
                      (snd (retryLoop n fn ctx task data retries w2)).
Proof.
  revert retries w1 w2. induction n as [|n IH]; intros retries w1 w2 Hs.
  - split; [reflexivity|exact Hs].
  - rewrite !retryLoop_step. cbn zeta.
    assert (ext w1 = ext w2) as He by (unfold same_but_executions in Hs; tauto).
    rewrite He.
    assert (same_but_executions
              (set_ext (snd (fn ctx data (ext w2)))
                 (set_trace (trace w1 ++ [EvInvoke (Task_ID task)]) w1))
              (set_ext (snd (fn ctx data (ext w2)))
                 (set_trace (trace w2 ++ [EvInvoke (Task_ID task)]) w2))) as Hs1
      by (sim_solve).
    destruct (fst (fn ctx data (ext w2))) as [e|]; [|split; [reflexivity|exact Hs1]].
    destruct (retries =? MaxRetry task); [split; [reflexivity|exact Hs1]|].
    apply IH.
    sim_solve.
Qed.

Lemma sim_executeTask ctx (task : Task) data w1 w2 :
  same_but_executions w1 w2 ->
  fst (executeTask ctx task data w1) = fst (executeTask ctx task data w2) /\
  same_but_executions (snd (executeTask ctx task data w1))
                      (snd (executeTask ctx task data w2)).
Proof.
  intros Hs. unfold executeTask.
  assert (taskFunctions w1 = taskFunctions w2) as Ht
    by (unfold same_but_executions in Hs; tauto).
  rewrite Ht. destruct (taskFunctions w2 !! Task_ID task).
  - apply sim_retryLoop. exact Hs.
  - split; [reflexivity|exact Hs].
Qed.

Lemma sim_ExecuteJob_tasks ctx tasks je1 je2 w1 w2 :
  same_but_executions w1 w2 ->
  same_job je1 je2 ->
  let r1 := ExecuteJob_tasks ctx tasks je1 w1 in
  let r2 := ExecuteJob_tasks ctx tasks je2 w2 in
  same_job (fst (fst r1)) (fst (fst r2)) /\
  snd (fst r1) = snd (fst r2) /\
  same_but_executions (snd r1) (snd r2).
Proof.
  revert je1 je2 w1 w2.
  induction tasks as [|t rest IH]; intros je1 je2 w1 w2 Hs Hj; cbn zeta.
  - cbn. auto.
  - rewrite !ExecuteJob_tasks_cons.
    assert (ext w1 = ext w2) as He by (unfold same_but_executions in Hs; tauto).
    assert (JobData je1 = JobData je2) as Hd
      by (unfold same_job, same_identity in Hj; intuition congruence).
    rewrite He. destruct (Done ctx (ext w2)).
    { cbn. split; [|split; [reflexivity|exact Hs]].
      sim_solve. }
    cbn zeta.
    set (je1r := set_TaskStatus (Task_ID t) TaskStatusRunning je1).
    set (je2r := set_TaskStatus (Task_ID t) TaskStatusRunning je2).
    pose proof (sim_update_or_log "Failed to update task status to running: "
                  je1r je2r w1 w2 Hs) as Hs1.
    set (v1 := snd (update_or_log _ je1r w1)) in *.
    set (v2 := snd (update_or_log _ je2r w2)) in *.
    change (JobData je1r) with (JobData je1).
    change (JobData je2r) with (JobData je2). rewrite Hd.
    destruct (sim_executeTask ctx t (JobData je2) v1 v2 Hs1) as (Hfst & Hs2).
    rewrite Hfst.
    destruct (fst (executeTask ctx t (JobData je2) v2)) as [e|].
    + cbn [fst snd]. split; [|split; [reflexivity|]].
      * sim_solve.
      * apply sim_update_or_log. exact Hs2.
    + apply IH.
      * apply sim_update_or_log. exact Hs2.
      * sim_solve.
Qed.

Lemma ExecuteJob_body_eq ctx jd je w :
  ExecuteJob_body ctx jd je w =
  let r := ExecuteJob_tasks ctx (Tasks jd) je w in
  match snd (fst r) with
  | Some e => ((fst (fst r), Some e), snd r)
  | None =>
      let je2 := set_Status JobStatusCompleted (fst (fst r)) in
      let u := UpdateJobExecution je2 (snd r) in
      match fst u with
      | Some e =>
          ((je2, Some ("failed to update job execution status to completed: "
                       +:+ e)), snd u)
      | None => ((je2, None), snd u)
      end
  end.
Proof.
  unfold ExecuteJob_body, bind.
  destruct (ExecuteJob_tasks ctx (Tasks jd) je w) as [[je1 [e|]] w1];
    cbn [fst snd]; [reflexivity|].
  destruct (UpdateJobExecution _ w1) as [[e|] w2]; reflexivity.
Qed.

Lemma db_Update_eq (fn : @BoltDB Data -> @BoltDB Data) w :
  db_Update (fun b => (None, fn b)) w =
  if decide (head (faults w) = Some true) then
    (Some errTx, set_faults (tail (faults w)) w)
  else (None, set_db (fn (db w)) (set_faults (tail (faults w)) w)).
Proof.
  unfold db_Update, bind, next_fault, ret.
  destruct w as [? ? ? ? ? ? ? ? ? ? ? fl ? ?]; cbn.
  destruct fl as [|[] fl]; reflexivity.
Qed.

Lemma db_View_eq {A} (fn : @BoltDB Data -> result A) w :
  db_View fn w =
  if decide (head (faults w) = Some true) then
    (Err errTx, set_faults (tail (faults w)) w)
  else (fn (db w), set_faults (tail (faults w)) w).
Proof.
  unfold db_View, bind, next_fault, ret.
  destruct w as [? ? ? ? ? ? ? ? ? ? ? fl ? ?]; cbn.
  destruct fl as [|[] fl]; reflexivity.
Qed.

Lemma ExecuteJob_deferred_eq id je w :
  ExecuteJob_deferred id je w =
  let w1 := set_ticks (S (ticks w))
              (set_ongoingJobs (ongoingJobs w ∖ {[id]}) w) in
  let w2 := snd (update_or_log
                   "Failed to update job execution after completion: "
                   (set_EndTime (clock w (ticks w)) je) w1) in
  let u := RemoveFromQueue id w2 in
  log_if ("Failed to remove job " +:+ id +:+ " from queue: ") (fst u) (snd u).
Proof.
  unfold ExecuteJob_deferred, ongoingJobs_Delete, time_Now, bind. cbn.
  destruct (update_or_log _ _ _) as [[] w2]. cbn [snd].
  destruct (RemoveFromQueue id w2) as [e w3]. reflexivity.
Qed.

Lemma ExecuteJob_eq ctx id w :
  ExecuteJob ctx id w =
  let g := GetJobExecution id w in
  match fst g with
  | Err e => (Some ("failed to get job execution: " +:+ e), snd g)
  | Ok je =>
      if terminal (Status je) then (None, snd g)
      else
        let d := GetJobDefinition (DefinitionID je) (snd g) in
        match fst d with
        | Err e => (Some ("failed to get job definition: " +:+ e), snd d)
        | Ok jd =>
            let je_r := set_Status JobStatusRunning je in
            let u := UpdateJobExecution je_r (snd d) in
            match fst u with
            | Some e =>
                (Some ("failed to update job execution status to running: "
                       +:+ e), snd u)
            | None =>
                let r := ExecuteJob_body ctx jd je_r
                           (snd (ongoingJobs_Store id (snd u))) in
                (snd (fst r), snd (ExecuteJob_deferred id (fst (fst r)) (snd r)))
            end
        end
  end.
Proof.
  unfold ExecuteJob, bind.
  destruct (GetJobExecution id w) as [[je|e] w1]; cbn [fst snd]; [|reflexivity].
  destruct (terminal (Status je)); [reflexivity|].
  destruct (GetJobDefinition _ w1) as [[jd|e] w2]; cbn [fst snd]; [|reflexivity].
  destruct (UpdateJobExecution _ w2) as [[e|] w3]; cbn [fst snd]; [reflexivity|].
  destruct (ongoingJobs_Store id w3) as [[] w4]. cbn [snd].
  destruct (ExecuteJob_body _ _ _ w4) as [[je_b err] w5]. cbn [fst snd].
  destruct (ExecuteJob_deferred id je_b w5) as [[] w6]. reflexivity.
Qed.

Lemma sim_ExecuteJob_body ctx jd je1 je2 w1 w2 :
  same_but_executions w1 w2 ->
  same_job je1 je2 ->
  let r1 := ExecuteJob_body ctx jd je1 w1 in
  let r2 := ExecuteJob_body ctx jd je2 w2 in
  same_identity (fst (fst r1)) (fst (fst r2)) /\
  snd (fst r1) = snd (fst r2) /\
  same_but_executions (snd r1) (snd r2).
Proof.
  intros Hs Hj. cbn zeta. rewrite !ExecuteJob_body_eq. cbn zeta.
  destruct (sim_ExecuteJob_tasks ctx (Tasks jd) je1 je2 w1 w2 Hs Hj)
    as ((Hid & Hst) & Hex & Hs1).
  rewrite Hex.
  destruct (snd (fst (ExecuteJob_tasks ctx (Tasks jd) je2 w2))) as [e|].
  - cbn [fst snd]. auto.
  - set (j1 := set_Status JobStatusCompleted _).
    set (j2 := set_Status JobStatusCompleted _).
    destruct (sim_UpdateJobExecution j1 j2 _ _ Hs1) as (Hu & Hs2).
    rewrite Hu. destruct (fst (UpdateJobExecution j2 _)); cbn [fst snd];
      (split; [|split; [reflexivity|exact Hs2]]);
      unfold j1, j2, same_identity in *; cbn; exact Hid.
Qed.

Lemma sim_ExecuteJob_deferred id je1 je2 w1 w2 :
  same_but_executions w1 w2 ->
  same_but_executions (snd (ExecuteJob_deferred id je1 w1))
                      (snd (ExecuteJob_deferred id je2 w2)).
Proof.
  intros Hs. rewrite !ExecuteJob_deferred_eq. cbn zeta.
  assert (clock w1 = clock w2 /\ ticks w1 = ticks w2) as [Hc Ht]
    by (unfold same_but_executions in Hs; tauto).
  rewrite Hc, Ht.
  set (v1 := set_ticks _ (set_ongoingJobs _ w1)).
  set (v2 := set_ticks _ (set_ongoingJobs _ w2)).
  assert (same_but_executions v1 v2) as Hs1
    by (unfold same_but_executions, v1, v2 in *; cbn; intuition congruence).
  pose proof (sim_update_or_log
                "Failed to update job execution after completion: "
                (set_EndTime (clock w2 (ticks w2)) je1)
                (set_EndTime (clock w2 (ticks w2)) je2) v1 v2 Hs1) as Hs2.
  set (u1 := snd (update_or_log _ _ v1)) in *.
  set (u2 := snd (update_or_log _ _ v2)) in *.
  unfold RemoveFromQueue. rewrite !db_Update_eq.
  assert (faults u1 = faults u2) as Hf
    by (unfold same_but_executions in Hs2; tauto).
  rewrite Hf. destruct (decide _); cbn;
    sim_solve.
Qed.

Lemma sim_ExecuteJob ctx id je1 je2 w1 w2 :
  same_but_executions w1 w2 ->
  job_executions (db w1) !! id = Some je1 ->
  job_executions (db w2) !! id = Some je2 ->
  same_identity je1 je2 ->
  terminal (Status je1) = false ->
  terminal (Status je2) = false ->
  fst (ExecuteJob ctx id w1) = fst (ExecuteJob ctx id w2) /\
  same_but_executions (snd (ExecuteJob ctx id w1)) (snd (ExecuteJob ctx id w2)).
Proof.
  intros Hs H1 H2 Hid Ht1 Ht2. rewrite !ExecuteJob_eq. cbn zeta.
  unfold GetJobExecution, GetJobDefinition. rewrite !db_View_eq.
  assert (faults w1 = faults w2) as Hf by (unfold same_but_executions in Hs; tauto).
  rewrite Hf. destruct (decide (head (faults w2) = Some true)); cbn [fst snd].
  { split; [reflexivity|].
    sim_solve. }
  rewrite H1, H2, Ht1, Ht2. rewrite !db_View_eq. cbn [faults set_faults].
  destruct (decide (head (tail (faults w2)) = Some true)); cbn [fst snd].
  { split; [reflexivity|].
    sim_solve. }
  cbn [db set_faults].
  assert (DefinitionID je1 = DefinitionID je2) as Hdid
    by (unfold same_identity in Hid; intuition congruence).
  assert (job_definitions (db w1) = job_definitions (db w2)) as Hjd
    by (unfold same_but_executions in Hs; tauto).
  rewrite Hdid, Hjd.
  destruct (job_definitions (db w2) !! DefinitionID je2) as [jd|];
    cbn [fst snd].
  2:{ split; [reflexivity|].
      sim_solve. }
  set (v1 := set_faults _ (set_faults _ w1)).
  set (v2 := set_faults _ (set_faults _ w2)).
  assert (same_but_executions v1 v2) as Hs1
    by (unfold same_but_executions, v1, v2 in *; cbn; intuition congruence).
  destruct (sim_UpdateJobExecution (set_Status JobStatusRunning je1)
              (set_Status JobStatusRunning je2) v1 v2 Hs1) as (Hu & Hs2).
  rewrite Hu.
  destruct (fst (UpdateJobExecution (set_Status JobStatusRunning je2) v2)).
  { split; [reflexivity|exact Hs2]. }
  set (u1 := snd (ongoingJobs_Store id _)).
  set (u2 := snd (ongoingJobs_Store id _)).
  assert (same_but_executions u1 u2) as Hs3
    by (unfold same_but_executions, u1, u2 in *; cbn; intuition congruence).
  destruct (sim_ExecuteJob_body ctx jd (set_Status JobStatusRunning je1)
              (set_Status JobStatusRunning je2) u1 u2 Hs3) as (_ & He & Hs4).
  { split; [|reflexivity]. unfold same_identity in *; cbn. exact Hid. }
  cbn [fst snd]. split; [exact He|].
  apply sim_ExecuteJob_deferred. exact Hs4.
Qed.

(** ** Recovery *)

Lemma recoverState_jobs_spec ids w :
  let w' := snd (recoverState_jobs ids w) in
  (forall x, x ∈ ongoingJobs w' <-> x ∈ ids \/ x ∈ ongoingJobs w) /\
  goroutines w'
  = goroutines w
    ++ ((fun id => {| g_executionID := id; g_releases := false |}) <$> ids) /\
  db w' = db w /\ workerPool w' = workerPool w /\
  maxConcurrent w' = maxConcurrent w.
Proof.
  revert w. induction ids as [|id ids IH]; intros w; cbn zeta.
  - cbn. rewrite app_nil_r. repeat split; try tauto.
    intros [H|H]; [inversion H|exact H].
  - cbn [recoverState_jobs]. unfold bind, ongoingJobs_Store, go.
    match goal with |- context [recoverState_jobs ids ?v] =>
      specialize (IH v); cbn zeta in IH; destruct IH as (Ho & Hg & Hd & Hp & Hm)
    end.
    split; [|split; [|repeat split; assumption]].
    + intros x. rewrite Ho. cbn. rewrite elem_of_union, elem_of_singleton,
        elem_of_cons. tauto.
    + rewrite Hg. cbn. rewrite <- app_assoc. reflexivity.
Qed.

Lemma elem_of_bucket_values {V} (m : gmap string V) k x :
  m !! k = Some x -> x ∈ bucket_values m.
Proof.
  intros Hk. unfold bucket_values. apply list_elem_of_omap.
  exists k. split; [|exact Hk].
  unfold bucket_keys. rewrite merge_sort_Permutation.
  apply elem_of_elements, elem_of_dom. eauto.
Qed.

Lemma ExecuteJob_all_succeed ctx id w je jd :
  job_executions (db w) !! id = Some je ->
  ID je = id ->
  terminal (Status je) = false ->
  job_definitions (db w) !! DefinitionID je = Some jd ->
  faults w = [] ->
  (forall e, Done ctx e = false) ->
  Forall (succeeds_in w) (Tasks jd) ->
  exists w' je',
    ExecuteJob ctx id w = (None, w') /\
    trace w' = trace w ++ (EvInvoke <$> (Task_ID <$> Tasks jd)) /\
    job_executions (db w') !! id = Some je' /\
    Status je' = JobStatusCompleted /\
    (forall t, t ∈ Tasks jd ->
               TaskStatuses je' !! Task_ID t = Some TaskStatusCompleted).
Proof.
  intros Hje HID Hst Hjd Hf Hctx Hall.
  assert (no_fault_in 3 w) as Hnf by (unfold no_fault_in; rewrite Hf; constructor).
  rewrite (ExecuteJob_running ctx id w je jd Hje Hst Hjd Hnf). cbn zeta.
  set (je_r := set_Status JobStatusRunning je).
  set (w_r := running_world id je w).
  assert (faults w_r = []) as Hfr
    by (unfold w_r, running_world; cbn; rewrite Hf; done).
  destruct (ExecuteJob_tasks_succeeding ctx (Tasks jd) [] je_r w_r Hfr Hctx)
    as (w1 & Hrun1 & Hf1 & Hfr1 & Htr1).
  { eapply Forall_impl; [exact Hall|]. intros q Hq. exact Hq. }
  rewrite app_nil_r in Hrun1. cbn [ExecuteJob_tasks] in Hrun1.
  rewrite ExecuteJob_body_eq. cbn zeta. rewrite Hrun1. unfold ret.
  cbn [fst snd]. rewrite UpdateJobExecution_ok by exact Hf1. cbn [fst snd].
  rewrite ExecuteJob_deferred_ok by exact Hf1. cbn [fst snd].
  eexists _, _. split; [reflexivity|].
  split; [cbn; exact Htr1|].
  split; [cbn; rewrite <- HID; apply lookup_insert_eq|].
  split; [reflexivity|].
  intros t Ht. cbn. apply completed_all_lookup_in, list_elem_of_fmap. eauto.
Qed.

(** C7: an execution stored as RUNNING when [recoverState] runs is added to
    the ongoing set and given a goroutine whose body is the call
    [ExecuteJob(context.Background(), id)], the call that the goroutine of a
    dispatch from the queue makes (before it logs the error and releases its
    worker slot).  That call does not look at the recorded task statuses: it
    returns the same error and leaves the same trace of task calls and
    sleeps, the same outside world, ongoing set and queue as it does on the
    record as it was enqueued (QUEUED, no task status), so it starts at the
    first task of the definition; and when the tasks all succeed it calls
    every task of the definition once, in order, and ends COMPLETED. *)
Theorem recoverState_restarts_from_first_task w id je :
  job_executions (db w) !! id = Some je ->
  Status je = JobStatusRunning ->
  ID je = id ->
  head (faults w) <> Some true ->
  (exists w',
     recoverState w = (None, w') /\
     id ∈ ongoingJobs w' /\
     {| g_executionID := id; g_releases := false |} ∈ goroutines w' /\
     db w' = db w) /\
  (forall v,
     let r := ExecuteJob Background id v in
     run_goroutine {| g_executionID := id; g_releases := false |} v
     = (tt, snd r) /\
     run_goroutine {| g_executionID := id; g_releases := true |} v
     = (tt, let v' := snd (log_if ("Error executing job " +:+ id +:+ ": ")
                             (fst r) (snd r)) in
            set_workerPool (pred (workerPool v')) v')) /\
  (forall ctx v,
     job_executions (db v) !! id = Some je ->
     let v0 := with_execution id (as_enqueued je) v in
     fst (ExecuteJob ctx id v) = fst (ExecuteJob ctx id v0) /\
     same_but_executions (snd (ExecuteJob ctx id v))
                         (snd (ExecuteJob ctx id v0))) /\
  (forall ctx v jd,
     job_executions (db v) !! id = Some je ->
     job_definitions (db v) !! DefinitionID je = Some jd ->
     faults v = [] ->
     (forall e, Done ctx e = false) ->
     Forall (succeeds_in v) (Tasks jd) ->
     exists v' je',
       ExecuteJob ctx id v = (None, v') /\
       trace v' = trace v ++ (EvInvoke <$> (Task_ID <$> Tasks jd)) /\
       job_executions (db v') !! id = Some je' /\
       Status je' = JobStatusCompleted /\
       (forall t, t ∈ Tasks jd ->
                  TaskStatuses je' !! Task_ID t = Some TaskStatusCompleted)).
Proof.
  intros Hje Hst HID Hf. split; [|split; [|split]].
  - unfold recoverState, GetRunningJobs, bind at 1.
    rewrite db_View_ok by exact Hf. unfold bind.
    set (ids := ID <$> filter _ _).
    set (w0 := set_faults _ w).
    destruct (recoverState_jobs_spec ids w0) as (Ho & Hg & Hd & _).
    destruct (recoverState_jobs ids w0) as [[] w'] eqn:Hrun. cbn [snd] in *.
    assert (id ∈ ids) as Hin.
    { unfold ids. rewrite <- HID. apply list_elem_of_fmap. exists je.
      split; [reflexivity|]. apply list_elem_of_filter. split; [exact Hst|].
      eapply elem_of_bucket_values. exact Hje. }
    exists w'. split; [reflexivity|]. split; [apply Ho; left; exact Hin|].
    split; [|rewrite Hd; reflexivity].
    rewrite Hg. apply elem_of_app. right.
    apply list_elem_of_fmap. exists id. split; [reflexivity|exact Hin].
  - intros v. unfold run_goroutine, bind. cbn.
    destruct (ExecuteJob Background id v) as [err v']. cbn [fst snd].
    split; [reflexivity|]. destruct (log_if _ err v') as [[] v'']. reflexivity.
  - intros ctx v Hv v0.
    apply sim_ExecuteJob with (je1 := je) (je2 := as_enqueued je).
    + unfold same_but_executions, v0, with_execution. cbn. repeat split.
    + exact Hv.
    + unfold v0, with_execution. cbn. apply lookup_insert_eq.
    + unfold same_identity, as_enqueued. cbn. repeat split.
    + rewrite Hst. reflexivity.
    + reflexivity.
  - intros ctx v jd Hv Hjd Hfv Hctx Hall.
    apply ExecuteJob_all_succeed with (je := je); try assumption.
    rewrite Hst. reflexivity.
Qed.

(** ** The store: round trips and the queue bucket *)

Lemma StoreJobDefinition_head_ok (jd : JobDefinition) w :
  head (faults w) <> Some true ->
  valid_key (JobDefinition_ID jd) ->
  StoreJobDefinition jd w
  = (None, set_db (put_job_definition jd (db w))
             (set_faults (tail (faults w)) w)).
Proof.
  intros Hf Hk. unfold StoreJobDefinition. rewrite Hk.
  rewrite (db_Update_eq (put_job_definition jd)).
  destruct (decide _) as [E|_]; [contradiction|reflexivity].
Qed.

(** X1 (boltdb.go, StoreJobDefinition and GetJobDefinition): a definition
    registered under an id that the bucket accepts as a key is read back as
    it was stored, whatever was stored under its id before; the definitions
    under the other ids, the executions and the queue are as they were. *)
Theorem definition_store_get_round_trip (jd : JobDefinition) w :
  no_fault_in 2 w ->
  valid_key (JobDefinition_ID jd) ->
  let w1 := snd (RegisterJobDefinition jd w) in
  fst (RegisterJobDefinition jd w) = None /\
  fst (GetJobDefinition (JobDefinition_ID jd) w1) = Ok jd /\
  (forall id, id <> JobDefinition_ID jd ->
              job_definitions (db w1) !! id = job_definitions (db w) !! id) /\
  job_executions (db w1) = job_executions (db w) /\
  queue (db w1) = queue (db w).
Proof.
  intros Hf Hk. unfold RegisterJobDefinition.
  rewrite StoreJobDefinition_head_ok
    by (first [exact Hk | eapply no_fault_in_head; exact Hf]).
  cbn [fst snd]. apply no_fault_in_tail in Hf.
  split; [reflexivity|]. split.
  - unfold GetJobDefinition.
    rewrite db_View_ok by (eapply no_fault_in_head; exact Hf).
    cbn. rewrite lookup_insert_eq. reflexivity.
  - split; [|split; reflexivity].
    intros id Hid. cbn. rewrite lookup_insert_ne by congruence. reflexivity.
Qed.

Lemma StoreJobExecution_head_ok je w :
  head (faults w) <> Some true ->
  StoreJobExecution je w = (None, committed je (set_faults (tail (faults w)) w)).
Proof. exact (UpdateJobExecution_head_ok je w). Qed.

Lemma GetJobExecution_head_ok id w :
  head (faults w) <> Some true ->
  GetJobExecution id w
  = (match job_executions (db w) !! id with
     | None => Err "job execution not found"
     | Some je => Ok je
     end, set_faults (tail (faults w)) w).
Proof. intros Hf. unfold GetJobExecution. rewrite db_View_ok by exact Hf. reflexivity. Qed.

Lemma GetJobDefinition_head_ok id w :
  head (faults w) <> Some true ->
  GetJobDefinition id w
  = (match job_definitions (db w) !! id with
     | None => Err "job definition not found"
     | Some jd => Ok jd
     end, set_faults (tail (faults w)) w).
Proof. intros Hf. unfold GetJobDefinition. rewrite db_View_ok by exact Hf. reflexivity. Qed.

(** X2 (boltdb.go, StoreJobExecution, UpdateJobExecution and
    GetJobExecution): an update replaces the whole record stored under the
    id: after a store and an update of one id the later record is read back,
    and the records under the other ids are as they were. *)
Theorem execution_update_replaces_record je je' w :
  ID je' = ID je ->
  no_fault_in 3 w ->
  let w1 := snd (StoreJobExecution je w) in
  let w2 := snd (UpdateJobExecution je' w1) in
  fst (StoreJobExecution je w) = None /\
  fst (UpdateJobExecution je' w1) = None /\
  fst (GetJobExecution (ID je) w2) = Ok je' /\
  other_records_kept (ID je) w w2 /\
  job_definitions (db w2) = job_definitions (db w) /\
  queue (db w2) = queue (db w).
Proof.
  intros Hid Hf. cbn zeta.
  rewrite StoreJobExecution_head_ok by (eapply no_fault_in_head; exact Hf).
  cbn [fst snd]. apply no_fault_in_tail in Hf.
  rewrite UpdateJobExecution_head_ok by exact (no_fault_in_head 1 _ Hf).
  cbn [fst snd]. apply no_fault_in_tail in Hf.
  split; [reflexivity|]. split; [reflexivity|]. split.
  - rewrite GetJobExecution_head_ok.
    + cbn. rewrite Hid, lookup_insert_eq. reflexivity.
    + exact (no_fault_in_head 0 _ Hf).
  - split; [|split; reflexivity].
    intros k Hk. cbn. rewrite Hid.
    rewrite !lookup_insert_ne by congruence. reflexivity.
Qed.

(** The keys a cursor visits: each key of the bucket once, in ascending
    order. *)
Lemma bucket_keys_spec (keys : gset string) :
  StronglySorted String.le (bucket_keys keys) /\ NoDup (bucket_keys keys) /\
  (forall x, x ∈ bucket_keys keys <-> x ∈ keys) /\
  length (bucket_keys keys) = size keys.
Proof.
  unfold bucket_keys. split; [|split; [|split]].
  - apply StronglySorted_merge_sort; apply _.
  - rewrite merge_sort_Permutation. apply NoDup_elements.
  - intros x. rewrite merge_sort_Permutation. apply elem_of_elements.
  - rewrite merge_sort_Permutation. reflexivity.
Qed.

Lemma StronglySorted_sublist {A} (R : relation A) (l k : list A) :
  l `sublist_of` k -> StronglySorted R k -> StronglySorted R l.
Proof.
  induction 1 as [|x l k Hs IH|x l k Hs IH]; intros Hk.
  - constructor.
  - apply StronglySorted_inv in Hk as [Hk Hx]. constructor; [auto|].
    rewrite Forall_forall in Hx |- *. intros y Hy. apply Hx.
    eapply elem_of_sublist; eassumption.
  - apply StronglySorted_inv in Hk as [Hk _]. auto.
Qed.

(** A sorted list without duplicates is the list of the keys of its set. *)
Lemma bucket_keys_list_to_set (l : list string) :
  StronglySorted String.le l -> NoDup l -> bucket_keys (list_to_set l) = l.
Proof.
  intros Hs Hn. unfold bucket_keys. apply (Sorted_unique String.le).
  - apply Sorted_merge_sort. apply _.
  - apply StronglySorted_Sorted. exact Hs.
  - rewrite merge_sort_Permutation. apply elements_list_to_set. exact Hn.
Qed.

Lemma running_ids_sublist (m : gmap string (@JobExecution Data))
    (keys : list string) :
  (forall k je, m !! k = Some je -> ID je = k) ->
  (ID <$> filter (fun je => Status je = JobStatusRunning)
                 (omap (fun k => m !! k) keys)) `sublist_of` keys.
Proof.
  intros Hkey. induction keys as [|k keys IH]; [constructor|].
  cbn [omap list_omap]. destruct (m !! k) as [je|] eqn:E.
  - rewrite filter_cons. destruct (decide (Status je = JobStatusRunning)).
    + rewrite fmap_cons, (Hkey k je E). apply sublist_skip. exact IH.
    + apply sublist_cons. exact IH.
  - apply sublist_cons. exact IH.
Qed.

Lemma GetRunningJobs_head_ok w :
  head (faults w) <> Some true ->
  GetRunningJobs w
  = (Ok (ID <$> filter (fun je => Status je = JobStatusRunning)
                       (bucket_values (job_executions (db w)))),
     set_faults (tail (faults w)) w).
Proof. intros Hf. unfold GetRunningJobs. rewrite db_View_ok by exact Hf. reflexivity. Qed.

Lemma elem_of_running_ids (b : @BoltDB Data) id :
  keyed_by_ID b ->
  id ∈ ID <$> filter (fun je => Status je = JobStatusRunning)
                     (bucket_values (job_executions b)) <->
  exists je, job_executions b !! id = Some je /\ Status je = JobStatusRunning.
Proof.
  intros Hkey. rewrite list_elem_of_fmap. split.
  - intros (je & -> & Hin). apply list_elem_of_filter in Hin as [Hrun Hin].
    unfold bucket_values in Hin. apply list_elem_of_omap in Hin as (k & _ & Hk).
    exists je. split; [|exact Hrun]. rewrite (Hkey k je Hk). exact Hk.
  - intros (je & Hje & Hrun). exists je. split.
    + symmetry. exact (Hkey id je Hje).
    + apply list_elem_of_filter. split; [exact Hrun|].
      eapply elem_of_bucket_values. exact Hje.
Qed.

(** X3 (boltdb.go, GetRunningJobs): over a store that keeps every execution
    under its own id, the listing holds exactly the ids whose record is
    RUNNING, each once and in ascending order of the ids; the store is not
    changed. *)
Theorem GetRunningJobs_exactly_running w :
  head (faults w) <> Some true ->
  keyed_by_ID (db w) ->
  exists ids,
    GetRunningJobs w = (Ok ids, set_faults (tail (faults w)) w) /\
    NoDup ids /\ StronglySorted String.le ids /\
    forall id, id ∈ ids <->
               exists je, job_executions (db w) !! id = Some je /\
                          Status je = JobStatusRunning.
Proof.
  intros Hf Hkey. eexists. split; [apply GetRunningJobs_head_ok; exact Hf|].
  pose proof (bucket_keys_spec (dom (job_executions (db w)))) as (Hs & Hn & _).
  pose proof (running_ids_sublist (job_executions (db w))
                (bucket_keys (dom (job_executions (db w)))) Hkey) as Hsub.
  split; [|split].
  - eapply sublist_NoDup; [exact Hn|exact Hsub].
  - eapply StronglySorted_sublist; [exact Hsub|exact Hs].
  - intros id. apply elem_of_running_ids. exact Hkey.
Qed.

Lemma GetQueuedJobs_head_ok w :
  head (faults w) <> Some true ->
  GetQueuedJobs w
  = (Ok (bucket_keys (queue (db w))), set_faults (tail (faults w)) w).
Proof. intros Hf. unfold GetQueuedJobs. rewrite db_View_ok by exact Hf. reflexivity. Qed.

Lemma GetQueuedJobCount_head_ok w :
  head (faults w) <> Some true ->
  GetQueuedJobCount w
  = (Ok (size (queue (db w))), set_faults (tail (faults w)) w).
Proof. intros Hf. unfold GetQueuedJobCount. rewrite db_View_ok by exact Hf. reflexivity. Qed.

Lemma RemoveFromQueue_head_ok id w :
  head (faults w) <> Some true ->
  RemoveFromQueue id w
  = (None, set_db (set_queue (queue (db w) ∖ {[id]}) (db w))
             (set_faults (tail (faults w)) w)).
Proof.
  intros Hf. unfold RemoveFromQueue. rewrite db_Update_eq.
  destruct (decide _); [contradiction|reflexivity].
Qed.

Lemma BoltDB_EnqueueJob_head_ok id w :
  head (faults w) <> Some true ->
  valid_key id ->
  BoltDB_EnqueueJob id w
  = (None, set_db (set_queue ({[id]} ∪ queue (db w)) (db w))
             (set_faults (tail (faults w)) w)).
Proof.
  intros Hf Hk. unfold BoltDB_EnqueueJob. rewrite Hk.
  rewrite (db_Update_eq (fun b => set_queue ({[id]} ∪ queue b) b)).
  destruct (decide _); [contradiction|reflexivity].
Qed.

Lemma bucket_keys_difference_head (keys : gset string) k rest :
  bucket_keys keys = k :: rest -> bucket_keys (keys ∖ {[k]}) = rest.
Proof.
  intros E. pose proof (bucket_keys_spec keys) as (Hs & Hn & Hin & _).
  rewrite E in Hs, Hn, Hin.
  apply StronglySorted_inv in Hs as [Hs _]. apply NoDup_cons in Hn as [Hk Hn].
  rewrite <- (bucket_keys_list_to_set rest Hs Hn). f_equal.
  apply set_eq. intros x.
  rewrite elem_of_difference, elem_of_singleton, elem_of_list_to_set, <- Hin,
    elem_of_cons.
  split.
  - intros [[->|Hx] Hne]; [contradiction|exact Hx].
  - intros Hx. split; [right; exact Hx|]. intros ->. contradiction.
Qed.

(** X4 (boltdb.go, GetQueuedJobs, GetQueuedJobCount and DequeueJob): the
    listing of the queue holds each queued id once, in ascending order, and
    the count is its length; the listing tells what the next dequeue does:
    on an empty listing it fails with the empty-queue error and changes
    nothing, otherwise it hands out the first listed id and leaves a queue
    whose listing is the rest. *)
Theorem queue_listing_predicts_dequeue w :
  faults w = [] ->
  exists ids,
    GetQueuedJobs w = (Ok ids, w) /\
    GetQueuedJobCount w = (Ok (length ids), w) /\
    NoDup ids /\ StronglySorted String.le ids /\
    (forall id, id ∈ ids <-> id ∈ queue (db w)) /\
    match ids with
    | [] => DequeueJob w = (Err errQueueEmpty, w)
    | id :: rest =>
        exists w', DequeueJob w = (Ok id, w') /\
                   GetQueuedJobs w' = (Ok rest, w') /\
                   job_executions (db w') = job_executions (db w) /\
                   job_definitions (db w') = job_definitions (db w)
    end.
Proof.
  intros Hf.
  assert (forall v : @World Data Ext, faults v = [] ->
            set_faults (tail (faults v)) v = v) as Hid
    by (intros [] Hv; cbn in *; subst; reflexivity).
  assert (head (faults w) <> Some true) as Hh by (rewrite Hf; discriminate).
  pose proof (bucket_keys_spec (queue (db w))) as (Hs & Hn & Hin & Hlen).
  exists (bucket_keys (queue (db w))).
  split; [rewrite GetQueuedJobs_head_ok, Hid by assumption; reflexivity|].
  split; [rewrite GetQueuedJobCount_head_ok, Hid, Hlen by assumption; reflexivity|].
  split; [exact Hn|]. split; [exact Hs|]. split; [exact Hin|].
  rewrite DequeueJob_ok by exact Hf.
  destruct (bucket_keys (queue (db w))) as [|id rest] eqn:E; cbn [head].
  - reflexivity.
  - eexists. split; [reflexivity|].
    rewrite GetQueuedJobs_head_ok by (destruct w; cbn in *; subst; discriminate).
    cbn [db set_db]. cbn [queue set_queue].
    rewrite (bucket_keys_difference_head _ _ _ E).
    split; [|split; reflexivity].
    f_equal. destruct w; cbn in *; subst. reflexivity.
Qed.

Lemma set_db_same w (b : @BoltDB Data) : b = db w -> set_db b w = w.
Proof. intros ->. destruct w; reflexivity. Qed.

Lemma set_queue_same (b : @BoltDB Data) q : q = queue b -> set_queue q b = b.
Proof. intros ->. destruct b; reflexivity. Qed.

(** X5 (boltdb.go, EnqueueJob and RemoveFromQueue): the queue holds an id at
    most once.  Enqueuing an id (a key the bucket accepts) that is queued
    already succeeds and changes nothing; removing an id that is not queued
    succeeds and changes nothing; so however often an id has been enqueued,
    one removal takes it out, and the queue is then as it was before the id
    came in. *)
Theorem queue_holds_an_id_once id w :
  faults w = [] ->
  valid_key id ->
  (id ∈ queue (db w) -> BoltDB_EnqueueJob id w = (None, w)) /\
  (id ∉ queue (db w) -> RemoveFromQueue id w = (None, w)) /\
  let w2 := snd (BoltDB_EnqueueJob id (snd (BoltDB_EnqueueJob id w))) in
  let w3 := snd (RemoveFromQueue id w2) in
  fst (GetQueuedJobCount w2) = Ok (size ({[id]} ∪ queue (db w))) /\
  (id ∉ queue (db w3)) /\
  (id ∉ queue (db w) -> w3 = w).
Proof.
  intros Hf Hk.
  assert (head (faults w) <> Some true) as Hh by (rewrite Hf; discriminate).
  assert (set_faults (tail (faults w)) w = w) as Hid
    by (destruct w; cbn in *; subst; reflexivity).
  split; [|split].
  - intros Hin. rewrite BoltDB_EnqueueJob_ok by assumption. f_equal.
    apply set_db_same, set_queue_same, set_eq. intros x.
    rewrite elem_of_union, elem_of_singleton. split; [|tauto].
    intros [->|Hx]; assumption.
  - intros Hin. rewrite RemoveFromQueue_head_ok, Hid by exact Hh. f_equal.
    apply set_db_same, set_queue_same, set_eq. intros x.
    rewrite elem_of_difference, elem_of_singleton. split; [tauto|].
    intros Hx. split; [exact Hx|]. intros ->. contradiction.
  - cbn zeta. rewrite (BoltDB_EnqueueJob_ok id w) by assumption. cbn [snd].
    rewrite BoltDB_EnqueueJob_ok by (first [exact Hk | destruct w; exact Hf]).
    cbn [snd].
    rewrite GetQueuedJobCount_head_ok by (destruct w; cbn in *; subst; discriminate).
    rewrite RemoveFromQueue_head_ok by (destruct w; cbn in *; subst; discriminate).
    cbn [fst snd]. split; [|split].
    + f_equal. f_equal. destruct w as [[] ? ? ? ? ? ? ? ? ? ? ? ? ?]; cbn.
      apply set_eq. intros x. rewrite !elem_of_union, elem_of_singleton. tauto.
    + destruct w as [[] ? ? ? ? ? ? ? ? ? ? ? ? ?]; cbn.
      rewrite elem_of_difference, elem_of_singleton. tauto.
    + intros Hin. destruct w as [[? ? q] ? ? ? ? ? ? ? ? ? ? ? ? ?]; cbn in *.
      subst. unfold set_db, set_faults, set_queue; cbn. do 2 f_equal.
      apply set_eq. intros x.
      rewrite elem_of_difference, !elem_of_union, elem_of_singleton.
      split; [tauto|]. intros Hx. split; [tauto|]. intros ->. contradiction.
Qed.

(** ** executeTask with any implementation *)

Lemma retryLoop_trace n fn ctx (task : Task) data retries w :
  Z.of_nat (S n) = MaxRetry task + 1 - retries ->
  let r := retryLoop (S n) fn ctx task data retries w in
  exists k, (k <= n)%nat /\
    trace (snd r) = trace w ++ retry_events (Task_ID task) k retries /\
    (fst r <> None -> k = n).
Proof.
  revert retries w. induction n as [|n IH]; intros retries w Hn; cbn zeta;
    rewrite retryLoop_step; cbn zeta;
    destruct (fst (fn ctx data (ext w))) as [e|] eqn:E.
  - replace (retries =? MaxRetry task) with true by (symmetry; apply Z.eqb_eq; lia).
    exists 0%nat. cbn. auto.
  - exists 0%nat. cbn. auto.
  - replace (retries =? MaxRetry task) with false by (symmetry; apply Z.eqb_neq; lia).
    match goal with |- context [retryLoop (S n) fn ctx task data (retries + 1) ?v] =>
      destruct (IH (retries + 1) v) as (k & Hk & Htr & Hlast); [lia|] end.
    exists (S k). split; [lia|]. split.
    + rewrite Htr. cbn. rewrite <- !app_assoc. reflexivity.
    + intros Hne. f_equal. apply Hlast. exact Hne.
  - exists 0%nat. cbn. split; [lia|]. split; [reflexivity|]. congruence.
Qed.

(** X6 (task.go, executeTask): whatever the implementation does, a run of
    [executeTask] either makes no call at all and fails (no function is
    registered for the task, or its retry count is negative), or it makes
    [k + 1] calls with [k <= MaxRetry], a wait after each call but the last
    and none after the last; it gives up only after the call number
    [MaxRetry + 1]; and it touches nothing but the trace and the world of the
    task functions. *)
Theorem executeTask_attempts ctx (task : Task) data w :
  let r := executeTask ctx task data w in
  touches_trace_ext w (snd r) /\
  ((fst r <> None /\ snd r = w /\
    (taskFunctions w !! Task_ID task = None \/ MaxRetry task < 0)) \/
   (exists k, Z.of_nat k <= MaxRetry task /\
      trace (snd r) = trace w ++ retry_events (Task_ID task) k 0 /\
      (fst r <> None -> Z.of_nat k = MaxRetry task))).
Proof.
  cbn zeta. split; [apply executeTask_frame|].
  unfold executeTask. destruct (taskFunctions w !! Task_ID task) as [fn|] eqn:E.
  - destruct (Z.to_nat (MaxRetry task + 1)) as [|n] eqn:En.
    + left. cbn. split; [discriminate|]. split; [reflexivity|]. right. lia.
    + right.
      destruct (retryLoop_trace n fn ctx task data 0 w) as (k & Hk & Htr & Hlast);
        [lia|].
      exists k. split; [lia|]. split; [exact Htr|].
      intros Hne. rewrite (Hlast Hne). lia.
  - left. cbn. split; [discriminate|]. split; [reflexivity|]. left. reflexivity.
Qed.

Lemma retryLoop_fails_then_succeeds k n fn ctx (task : Task) data retries w :
  (k < n)%nat ->
  retries + Z.of_nat k <= MaxRetry task ->
  fails_then_succeeds k fn ctx data (ext w) ->
  let r := retryLoop n fn ctx task data retries w in
  fst r = None /\
  trace (snd r) = trace w ++ retry_events (Task_ID task) k retries.
Proof.
  revert n retries w. induction k as [|k IH]; intros n retries w Hn HR Hfn;
    (destruct n as [|n]; [lia|]); cbn zeta; rewrite retryLoop_step; cbn zeta;
    cbn [fails_then_succeeds] in Hfn.
  - rewrite Hfn. cbn. auto.
  - destruct Hfn as [Hfail Hrest].
    destruct (fst (fn ctx data (ext w))) as [e|]; [|congruence].
    replace (retries =? MaxRetry task) with false by (symmetry; apply Z.eqb_neq; lia).
    match goal with |- context [retryLoop n fn ctx task data (retries + 1) ?v] =>
      destruct (IH n (retries + 1) v) as (Hres & Htr); [lia|lia|exact Hrest|] end.
    split; [exact Hres|]. rewrite Htr. cbn. rewrite <- !app_assoc. reflexivity.
Qed.

(** X7 (task.go, executeTask): an implementation that fails [k] times and
    then succeeds, with [k] no more than the retry count of the task, makes
    [executeTask] return [nil] after [k + 1] calls, with the wait
    [backoff i] after the failed call number [i] and no wait after the
    successful one. *)
Theorem executeTask_succeeds_after_failures ctx (task : Task) data w fn k :
  taskFunctions w !! Task_ID task = Some fn ->
  fails_then_succeeds k fn ctx data (ext w) ->
  Z.of_nat k <= MaxRetry task ->
  let r := executeTask ctx task data w in
  fst r = None /\
  trace (snd r) = trace w ++ retry_events (Task_ID task) k 0 /\
  invocations (retry_events (Task_ID task) k 0)
    = replicate (S k) (Task_ID task) /\
  sleeps (retry_events (Task_ID task) k 0)
    = (fun i => backoff (Z.of_nat i)) <$> seq 0 k.
Proof.
  intros Hfn Hk HR. cbn zeta. unfold executeTask. rewrite Hfn.
  destruct (retryLoop_fails_then_succeeds k (Z.to_nat (MaxRetry task + 1))
              fn ctx task data 0 w) as (Hres & Htr); [lia|lia|exact Hk|].
  split; [exact Hres|]. split; [exact Htr|]. split.
  - apply invocations_retry_events.
  - rewrite sleeps_retry_events. reflexivity.
Qed.

(** ** ExecuteJob: the ways a run ends early *)

Lemma ExecuteJob_tasks_failing_with ctx (t : Task) post je w e evs :
  faults w = [] ->
  (forall x, Done ctx x = false) ->
  (forall v data, taskFunctions v = taskFunctions w ->
     exists v', executeTask ctx t data v = (Some e, v') /\
                trace v' = trace v ++ evs /\ touches_trace_ext v v') ->
  exists w2,
    let je2 := set_Status JobStatusFailed
                 (set_TaskStatus (Task_ID t) TaskStatusFailed
                    (set_TaskStatus (Task_ID t) TaskStatusRunning je)) in
    ExecuteJob_tasks ctx (t :: post) je w
    = ((je2, Some ("task " +:+ Task_ID t +:+ " failed: " +:+ e)), w2) /\
    faults w2 = [] /\ job_frame w w2 /\
    job_executions (db w2) !! ID je = Some je2 /\
    trace w2 = trace w ++ evs.
Proof.
  intros Hf Hctx Hfail.
  rewrite ExecuteJob_tasks_cons, Hctx. cbn zeta.
  rewrite update_or_log_ok by exact Hf. cbn [snd].
  set (je1 := set_TaskStatus (Task_ID t) TaskStatusRunning je).
  destruct (Hfail (committed je1 w) (JobData je1)) as (w1 & Hrun & Htr & Hfr);
    [reflexivity|].
  rewrite Hrun. cbn [fst snd].
  assert (faults w1 = []) as Hf1 by (rewrite Hfr; exact Hf).
  rewrite update_or_log_ok by exact Hf1. cbn [snd].
  eexists. cbn zeta. split; [reflexivity|].
  split; [exact Hf1|]. split.
  { eapply job_frame_trans; [|eapply job_frame_trans].
    - instantiate (1 := committed je1 w). repeat split.
    - apply touches_job_frame. exact Hfr.
    - repeat split. }
  split; [apply lookup_insert_eq|].
  cbn [trace committed set_writes set_db]. rewrite Htr. reflexivity.
Qed.

(** A run of [ExecuteJob] in which the tasks [pre] succeed and the run of
    [executeTask] for the next task [t] returns the error [e] after the
    events [evs]. *)
Lemma ExecuteJob_task_failure ctx id w je jd pre (t : Task) post e evs :
  job_executions (db w) !! id = Some je ->
  ID je = id ->
  terminal (Status je) = false ->
  job_definitions (db w) !! DefinitionID je = Some jd ->
  Tasks jd = pre ++ t :: post ->
  faults w = [] ->
  (forall x, Done ctx x = false) ->
  Forall (succeeds_in w) pre ->
  (forall v data, taskFunctions v = taskFunctions w ->
     exists v', executeTask ctx t data v = (Some e, v') /\
                trace v' = trace v ++ evs /\ touches_trace_ext v v') ->
  exists w' je',
    ExecuteJob ctx id w
    = (Some ("task " +:+ Task_ID t +:+ " failed: " +:+ e), w') /\
    job_executions (db w') !! id = Some je' /\
    Status je' = JobStatusFailed /\
    EndTime je' <> None /\
    TaskStatuses je' !! Task_ID t = Some TaskStatusFailed /\
    (forall p, p ∈ pre -> Task_ID p <> Task_ID t ->
               TaskStatuses je' !! Task_ID p = Some TaskStatusCompleted) /\
    (forall k, k ∉ Task_ID <$> (pre ++ [t]) ->
               TaskStatuses je' !! k = TaskStatuses je !! k) /\
    trace w' = trace w ++ (EvInvoke <$> (Task_ID <$> pre)) ++ evs /\
    (id ∉ ongoingJobs w') /\ (id ∉ queue (db w')).
Proof.
  intros Hje HID Hst Hjd Htasks Hf Hctx Hpre Hfail.
  assert (no_fault_in 3 w) as Hnf by (unfold no_fault_in; rewrite Hf; constructor).
  rewrite (ExecuteJob_running ctx id w je jd Hje Hst Hjd Hnf). cbn zeta.
  set (je_r := set_Status JobStatusRunning je).
  set (w_r := running_world id je w).
  assert (faults w_r = []) as Hfr by (unfold w_r, running_world; cbn; rewrite Hf; done).
  assert (taskFunctions w_r = taskFunctions w) as Htf by reflexivity.
  assert (trace w_r = trace w) as Htr_r by reflexivity.
  destruct (ExecuteJob_tasks_succeeding ctx pre (t :: post) je_r w_r Hfr Hctx)
    as (w1 & Hrun1 & Hf1 & Hfr1 & Htr1).
  { eapply Forall_impl; [exact Hpre|]. intros q Hq. exact Hq. }
  set (je1 := set_TaskStatuses (completed_all pre (TaskStatuses je_r)) je_r) in *.
  destruct (ExecuteJob_tasks_failing_with ctx t post je1 w1 e evs Hf1 Hctx)
    as (w2 & Hrun2 & Hf2 & Hfr2 & Hst2 & Htr2).
  { intros v data Hv. apply Hfail. rewrite Hv.
    destruct Hfr1 as (_ & _ & -> & _). exact Htf. }
  cbn zeta in Hrun2.
  assert (ExecuteJob_body ctx jd je_r w_r
          = ((set_Status JobStatusFailed
                (set_TaskStatus (Task_ID t) TaskStatusFailed
                   (set_TaskStatus (Task_ID t) TaskStatusRunning je1)),
              Some ("task " +:+ Task_ID t +:+ " failed: " +:+ e)), w2)) as Hbody.
  { unfold ExecuteJob_body, bind. rewrite Htasks, Hrun1, Hrun2. reflexivity. }
  rewrite Hbody. cbn [fst snd].
  rewrite (ExecuteJob_deferred_ok id _ w2 Hf2). cbn [fst snd].
  eexists _, _. split; [reflexivity|].
  split; [cbn; rewrite <- HID; apply lookup_insert_eq|].
  split; [reflexivity|]. split; [discriminate|].
  split; [cbn; apply lookup_insert_eq|].
  split.
  { intros p Hp Hne. cbn. rewrite !lookup_insert_ne by congruence.
    apply completed_all_lookup_in, list_elem_of_fmap. eauto. }
  split.
  { intros k Hk. rewrite fmap_app in Hk. cbn in Hk.
    apply not_elem_of_app in Hk as [Hk1 Hk2].
    apply not_elem_of_cons in Hk2 as [Hk2 _]. cbn.
    rewrite !lookup_insert_ne by congruence.
    apply completed_all_lookup_notin. exact Hk1. }
  split.
  { cbn. rewrite Htr2, Htr1, Htr_r, <- app_assoc. reflexivity. }
  cbn. rewrite !elem_of_difference, elem_of_singleton. tauto.
Qed.

(** X8 (job.go, ExecuteJob with task.go, executeTask): a task for which no
    function is registered fails its job at once, whatever its retry count:
    the execution is stored as FAILED with that task FAILED and the tasks
    before it COMPLETED, the only calls made are those of the tasks before
    it, and the cleanup has run. *)
Theorem ExecuteJob_unregistered_task ctx id w je jd pre (t : Task) post :
  job_executions (db w) !! id = Some je ->
  ID je = id ->
  terminal (Status je) = false ->
  job_definitions (db w) !! DefinitionID je = Some jd ->
  Tasks jd = pre ++ t :: post ->
  faults w = [] ->
  (forall x, Done ctx x = false) ->
  Forall (succeeds_in w) pre ->
  taskFunctions w !! Task_ID t = None ->
  exists w' je',
    ExecuteJob ctx id w
    = (Some ("task " +:+ Task_ID t +:+ " failed: " +:+
             "no function registered for task ID: " +:+ Task_ID t), w') /\
    job_executions (db w') !! id = Some je' /\
    Status je' = JobStatusFailed /\
    EndTime je' <> None /\
    TaskStatuses je' !! Task_ID t = Some TaskStatusFailed /\
    (forall p, p ∈ pre -> Task_ID p <> Task_ID t ->
               TaskStatuses je' !! Task_ID p = Some TaskStatusCompleted) /\
    trace w' = trace w ++ (EvInvoke <$> (Task_ID <$> pre)) /\
    (id ∉ ongoingJobs w') /\ (id ∉ queue (db w')).
Proof.
  intros Hje HID Hst Hjd Htasks Hf Hctx Hpre Hfn.
  destruct (ExecuteJob_task_failure ctx id w je jd pre t post
              ("no function registered for task ID: " +:+ Task_ID t) []
              Hje HID Hst Hjd Htasks Hf Hctx Hpre)
    as (w' & je' & Hrun & Hst' & Hfailed & Hend & Ht & Hp & _ & Htr & Hclean).
  { intros v data Hv. exists v. unfold executeTask. rewrite Hv, Hfn.
    split; [reflexivity|]. split; [rewrite app_nil_r; reflexivity|].
    unfold touches_trace_ext. destruct v; reflexivity. }
  exists w', je'. rewrite app_nil_r in Htr. auto 10.
Qed.

(** X9 (job.go, ExecuteJob with task.go, executeTask): a task whose retry
    count is negative is never attempted, even when its implementation is
    registered: [executeTask] falls through its loop to the statement after
    it, and the job is stored as FAILED with the error of that statement. *)
Theorem ExecuteJob_negative_MaxRetry ctx id w je jd pre (t : Task) post fn :
  job_executions (db w) !! id = Some je ->
  ID je = id ->
  terminal (Status je) = false ->
  job_definitions (db w) !! DefinitionID je = Some jd ->
  Tasks jd = pre ++ t :: post ->
  faults w = [] ->
  (forall x, Done ctx x = false) ->
  Forall (succeeds_in w) pre ->
  taskFunctions w !! Task_ID t = Some fn ->
  MaxRetry t < 0 ->
  exists w' je',
    ExecuteJob ctx id w
    = (Some ("task " +:+ Task_ID t +:+ " failed: " +:+
             "task " +:+ Task_ID t +:+ " failed after " +:+
             fmt_d (MaxRetry t) +:+ " retries"), w') /\
    job_executions (db w') !! id = Some je' /\
    Status je' = JobStatusFailed /\
    TaskStatuses je' !! Task_ID t = Some TaskStatusFailed /\
    trace w' = trace w ++ (EvInvoke <$> (Task_ID <$> pre)) /\
    (id ∉ ongoingJobs w') /\ (id ∉ queue (db w')).
Proof.
  intros Hje HID Hst Hjd Htasks Hf Hctx Hpre Hfn HR.
  destruct (ExecuteJob_task_failure ctx id w je jd pre t post
              ("task " +:+ Task_ID t +:+ " failed after " +:+
               fmt_d (MaxRetry t) +:+ " retries") []
              Hje HID Hst Hjd Htasks Hf Hctx Hpre)
    as (w' & je' & Hrun & Hst' & Hfailed & Hend & Ht & Hp & _ & Htr & Hclean).
  { intros v data Hv. exists v. unfold executeTask. rewrite Hv, Hfn.
    replace (Z.to_nat (MaxRetry t + 1)) with 0%nat by lia.
    split; [reflexivity|]. split; [rewrite app_nil_r; reflexivity|].
    unfold touches_trace_ext. destruct v; reflexivity. }
  exists w', je'. rewrite app_nil_r in Htr. auto 10.
Qed.

Lemma ExecuteJob_tasks_nil ctx je w :
  ExecuteJob_tasks ctx [] je w = ((je, None), w).
Proof. reflexivity. Qed.

(** X10 (job.go, ExecuteJob): cancellation is looked for only at the head of
    a turn of the task loop.  A job without tasks is therefore stored as
    COMPLETED even under a cancelled context; a job with tasks that starts
    under a cancelled context is stored as FAILED with its first task FAILED
    and the context's error returned, no task function is called, and the
    FAILED status reaches the store only through the write of the deferred
    cleanup. *)
Theorem ExecuteJob_cancelled_at_start ctx id w je jd :
  job_executions (db w) !! id = Some je ->
  ID je = id ->
  terminal (Status je) = false ->
  job_definitions (db w) !! DefinitionID je = Some jd ->
  faults w = [] ->
  Done ctx (ext w) = true ->
  let je_r := set_Status JobStatusRunning je in
  let w' := snd (ExecuteJob ctx id w) in
  trace w' = trace w /\ ext w' = ext w /\
  (id ∉ ongoingJobs w') /\ (id ∉ queue (db w')) /\
  match Tasks jd with
  | [] =>
      let je_c := set_Status JobStatusCompleted je_r in
      fst (ExecuteJob ctx id w) = None /\
      job_executions (db w') !! id
        = Some (set_EndTime (clock w (ticks w)) je_c) /\
      writes w' = writes w ++ [je_r; je_c; set_EndTime (clock w (ticks w)) je_c]
  | t :: _ =>
      let je_f := set_TaskStatus (Task_ID t) TaskStatusFailed
                    (set_Status JobStatusFailed je_r) in
      fst (ExecuteJob ctx id w) = Some (ctx_Err ctx) /\
      job_executions (db w') !! id
        = Some (set_EndTime (clock w (ticks w)) je_f) /\
      writes w' = writes w ++ [je_r; set_EndTime (clock w (ticks w)) je_f]
  end.
Proof.
  intros Hje HID Hst Hjd Hf Hdone.
  assert (no_fault_in 3 w) as Hnf by (unfold no_fault_in; rewrite Hf; constructor).
  cbn zeta. rewrite (ExecuteJob_running ctx id w je jd Hje Hst Hjd Hnf). cbn zeta.
  set (je_r := set_Status JobStatusRunning je).
  set (w_r := running_world id je w).
  assert (faults w_r = []) as Hfr by (unfold w_r, running_world; cbn; rewrite Hf; done).
  rewrite ExecuteJob_body_eq. cbn zeta.
  destruct (Tasks jd) as [|t rest].
  - rewrite ExecuteJob_tasks_nil. cbn [fst snd].
    rewrite UpdateJobExecution_ok by exact Hfr. cbn [fst snd].
    rewrite ExecuteJob_deferred_ok by exact Hfr. cbn [fst snd].
    cbn. rewrite !elem_of_difference, elem_of_singleton, <- HID, lookup_insert_eq.
    rewrite <- !app_assoc. cbn. tauto.
  - rewrite ExecuteJob_tasks_cons.
    replace (Done ctx (ext w_r)) with true by (symmetry; exact Hdone).
    cbn [fst snd].
    rewrite ExecuteJob_deferred_ok by exact Hfr. cbn [fst snd].
    cbn. rewrite !elem_of_difference, elem_of_singleton, <- HID, lookup_insert_eq.
    rewrite <- !app_assoc. cbn. tauto.
Qed.

(** X11 (job.go, ExecuteJob): an execution id under which nothing is stored
    makes [ExecuteJob] return the error of the read and do nothing else: no
    record is created, the id stays where it is (in the queue, among the
    ongoing ids), no task function is called and nothing is logged. *)
Theorem ExecuteJob_unknown_execution ctx id w :
  job_executions (db w) !! id = None ->
  head (faults w) <> Some true ->
  ExecuteJob ctx id w
  = (Some "failed to get job execution: job execution not found",
     set_faults (tail (faults w)) w).
Proof.
  intros Hje Hf. rewrite ExecuteJob_eq. cbn zeta.
  rewrite GetJobExecution_head_ok by exact Hf. rewrite Hje. reflexivity.
Qed.

(** ** ExecuteJob: what a run leaves alone *)

Lemma own_record_only_refl key w : own_record_only key w w.
Proof. split; [intros k _; reflexivity|]. intros je' H. left. exact H. Qed.

Lemma own_record_only_trans key w1 w2 w3 :
  own_record_only key w1 w2 -> own_record_only key w2 w3 ->
  own_record_only key w1 w3.
Proof.
  intros [H1 K1] [H2 K2]. split.
  - intros k Hk. rewrite (H2 k Hk). apply H1. exact Hk.
  - intros je' H. destruct (K2 je' H) as [H'|H']; [|right; exact H'].
    apply K1. exact H'.
Qed.

Lemma own_record_only_db key w w' : db w' = db w -> own_record_only key w w'.
Proof.
  intros E. split; [intros k _; rewrite E; reflexivity|].
  intros je' H. left. rewrite <- E. exact H.
Qed.

Lemma own_record_only_committed je w v :
  db v = db w -> own_record_only (ID je) w (committed je v).
Proof.
  intros E. split.
  - intros k Hk. cbn. rewrite lookup_insert_ne by congruence. rewrite E. reflexivity.
  - intros je'. cbn. rewrite lookup_insert_eq. intros [= <-]. right. reflexivity.
Qed.

Lemma update_or_log_own_record prefix je w :
  own_record_only (ID je) w (snd (update_or_log prefix je w)).
Proof.
  destruct (update_or_log_cases prefix je w) as [-> | ->]; cbn [snd].
  - apply own_record_only_committed. reflexivity.
  - apply own_record_only_db. reflexivity.
Qed.

Lemma UpdateJobExecution_own_record je w :
  own_record_only (ID je) w (snd (UpdateJobExecution je w)).
Proof.
  destruct (UpdateJobExecution_cases je w) as [-> | ->]; cbn [snd].
  - apply own_record_only_committed. reflexivity.
  - apply own_record_only_db. reflexivity.
Qed.

Lemma ExecuteJob_tasks_own_record ctx tasks je w :
  own_record_only (ID je) w (snd (ExecuteJob_tasks ctx tasks je w)).
Proof.
  revert je w. induction tasks as [|t rest IH]; intros je w.
  - apply own_record_only_refl.
  - rewrite ExecuteJob_tasks_cons. destruct (Done ctx (ext w)).
    + apply own_record_only_refl.
    + cbn zeta.
      set (je1 := set_TaskStatus (Task_ID t) TaskStatusRunning je).
      set (w1 := snd (update_or_log _ je1 w)).
      assert (own_record_only (ID je) w w1) as H1
        by exact (update_or_log_own_record _ je1 w).
      pose proof (executeTask_frame ctx t (JobData je1) w1) as Hfr.
      set (r := executeTask ctx t (JobData je1) w1) in *.
      assert (own_record_only (ID je) w1 (snd r)) as H2
        by (apply own_record_only_db; rewrite Hfr; reflexivity).
      destruct (fst r) as [e|]; cbn [snd].
      * apply (own_record_only_trans _ _ _ _ H1).
        apply (own_record_only_trans _ _ _ _ H2).
        match goal with |- context [update_or_log ?p ?j ?v] =>
          exact (update_or_log_own_record p j v) end.
      * match goal with
        | |- own_record_only _ _ (snd (ExecuteJob_tasks _ _ ?j ?v)) =>
            pose proof (IH j v) as H4;
            pose proof (update_or_log_own_record
                          "Failed to update task status to completed: " j (snd r))
              as H3
        end.
        apply (own_record_only_trans _ _ _ _ H1).
        apply (own_record_only_trans _ _ _ _ H2).
        exact (own_record_only_trans _ _ _ _ H3 H4).
Qed.

Lemma ExecuteJob_body_own_record ctx jd je w :
  own_record_only (ID je) w (snd (ExecuteJob_body ctx jd je w)).
Proof.
  rewrite ExecuteJob_body_eq. cbn zeta.
  pose proof (ExecuteJob_tasks_own_record ctx (Tasks jd) je w) as H1.
  pose proof (ExecuteJob_tasks_identity ctx (Tasks jd) je w) as (Hid & _).
  destruct (snd (fst (ExecuteJob_tasks ctx (Tasks jd) je w))); cbn [snd].
  - exact H1.
  - set (je2 := set_Status JobStatusCompleted _).
    set (w1 := snd (ExecuteJob_tasks ctx (Tasks jd) je w)) in *.
    assert (own_record_only (ID je) w1 (snd (UpdateJobExecution je2 w1))) as H2.
    { pose proof (UpdateJobExecution_own_record je2 w1) as H.
      cbn [ID je2 set_Status] in H. rewrite Hid in H. exact H. }
    destruct (fst (UpdateJobExecution je2 w1)); cbn [snd];
      (eapply own_record_only_trans; [exact H1|exact H2]).
Qed.

Lemma engine_kept_refl w : engine_kept w w.
Proof. unfold engine_kept. repeat split. Qed.

Lemma engine_kept_trans w1 w2 w3 :
  engine_kept w1 w2 -> engine_kept w2 w3 -> engine_kept w1 w3.
Proof. unfold engine_kept. intuition congruence. Qed.

Lemma job_frame_engine_kept w w' : job_frame w w' -> engine_kept w w'.
Proof. unfold job_frame, engine_kept. intuition. Qed.

Lemma ExecuteJob_body_frame ctx jd je w :
  job_frame w (snd (ExecuteJob_body ctx jd je w)).
Proof.
  rewrite ExecuteJob_body_eq. cbn zeta.
  pose proof (ExecuteJob_tasks_frame ctx (Tasks jd) je w) as H1.
  destruct (snd (fst (ExecuteJob_tasks ctx (Tasks jd) je w))); cbn [snd];
    [exact H1|].
  match goal with |- context [UpdateJobExecution ?j ?v] =>
    destruct (UpdateJobExecution_cases j v) as [E|E]; rewrite E; cbn [fst snd] end;
    (eapply job_frame_trans; [exact H1|]); repeat split.
Qed.

(** The deferred cleanup: the orchestrator's fields and the definitions are
    kept, the record of the execution is the only one written, and the id of
    the execution is the only one taken out of the queue and of the ongoing
    set. *)
Lemma ExecuteJob_deferred_frame id je w :
  let w' := snd (ExecuteJob_deferred id je w) in
  engine_kept w w' /\ own_record_only (ID je) w w' /\ other_ids_kept id w w' /\
  queue (db w') ⊆ queue (db w) /\ ongoingJobs w' ⊆ ongoingJobs w.
Proof.
  cbn zeta. rewrite ExecuteJob_deferred_eq. cbn zeta.
  set (w1 := set_ticks (S (ticks w)) (set_ongoingJobs (ongoingJobs w ∖ {[id]}) w)).
  set (je' := set_EndTime (clock w (ticks w)) je).
  pose proof (update_or_log_frame
                "Failed to update job execution after completion: " je' w1) as Hfr.
  pose proof (update_or_log_own_record
                "Failed to update job execution after completion: " je' w1) as Hown.
  set (w2 := snd (update_or_log _ je' w1)) in *.
  destruct Hfr as (Hp & Hon & Htf & Hmax & Hstop & Hdone & Hgo & Hclk & _ & Hjd & Hq).
  assert (exists q tr fl,
            snd (log_if ("Failed to remove job " +:+ id +:+ " from queue: ")
                   (fst (RemoveFromQueue id w2)) (snd (RemoveFromQueue id w2)))
            = set_trace tr (set_db (set_queue q (db w2)) (set_faults fl w2)) /\
            (q = queue (db w2) \/ q = queue (db w2) ∖ {[id]})) as (q & tr & fl & -> & Hq').
  { unfold RemoveFromQueue. rewrite db_Update_eq. destruct (decide _).
    - exists (queue (db w2)), (trace w2 ++
        [EvLog (("Failed to remove job " +:+ id +:+ " from queue: ") +:+ errTx)]),
        (tail (faults w2)).
      split; [|left; reflexivity]. cbn. destruct w2 as [[] ? ? ? ? ? ? ? ? ? ? ? ? ?];
        reflexivity.
    - exists (queue (db w2) ∖ {[id]}), (trace w2), (tail (faults w2)).
      split; [|right; reflexivity]. cbn. destruct w2; reflexivity. }
  cbn [db set_trace set_db set_faults workerPool taskFunctions maxConcurrent
       stop done goroutines clock ongoingJobs job_definitions job_executions
       queue set_queue].
  split; [|split; [|split; [|split]]].
  - unfold engine_kept. cbn. rewrite Hp, Htf, Hmax, Hstop, Hdone, Hgo, Hclk, Hjd.
    repeat split.
  - destruct Hown as [Ho1 Ho2]. split.
    + intros k Hk. cbn. apply Ho1. exact Hk.
    + intros j Hj. cbn in Hj. exact (Ho2 j Hj).
  - intros x Hx. cbn. rewrite Hon. cbn. split.
    + destruct Hq' as [-> | ->]; rewrite ?Hq; cbn;
        rewrite ?elem_of_difference, ?elem_of_singleton; tauto.
    + rewrite elem_of_difference, elem_of_singleton. tauto.
  - intros x. cbn. destruct Hq' as [-> | ->]; rewrite ?Hq; cbn;
      rewrite ?elem_of_difference; tauto.
  - intros x. cbn. rewrite Hon. cbn. rewrite elem_of_difference. tauto.
Qed.

Lemma ExecuteJob_frame ctx id w :
  let w' := snd (ExecuteJob ctx id w) in
  engine_kept w w' /\ other_ids_kept id w w' /\
  queue (db w') ⊆ queue (db w) /\ ongoingJobs w' ⊆ ongoingJobs w /\
  (forall je, job_executions (db w) !! id = Some je ->
              own_record_only (ID je) w w') /\
  (job_executions (db w) !! id = None -> db w' = db w).
Proof.
  cbn zeta. destruct (ExecuteJob_cases ctx id w) as [(e & fl & ->)|H].
  - cbn [snd]. split; [unfold engine_kept; repeat split|].
    split; [intros x _; tauto|].
    split; [reflexivity|]. split; [reflexivity|].
    split; [intros je _; apply own_record_only_db; reflexivity|]. reflexivity.
  - destruct H as (je & jd & Hje & Hst & Hjd & Hnf & ->). cbn zeta. cbn [snd].
    set (je_r := set_Status JobStatusRunning je).
    set (w_r := running_world id je w).
    pose proof (ExecuteJob_body_frame ctx jd je_r w_r) as Hbf.
    pose proof (ExecuteJob_body_own_record ctx jd je_r w_r) as Hbo.
    pose proof (ExecuteJob_body_identity ctx jd je_r w_r) as (Hbi & _).
    set (r := ExecuteJob_body ctx jd je_r w_r) in *.
    pose proof (ExecuteJob_deferred_frame id (fst (fst r)) (snd r))
      as (Hde & Hdo & Hdi & Hdq & Hdg).
    cbn zeta in *. set (w' := snd (ExecuteJob_deferred id (fst (fst r)) (snd r))) in *.
    rewrite Hbi in Hdo. change (ID je_r) with (ID je) in *.
    assert (own_record_only (ID je) w w_r) as Hro
      by (split; [intros k Hk; cbn; rewrite lookup_insert_ne by congruence;
                    reflexivity
                 |intros j; cbn; rewrite lookup_insert_eq; intros [= <-];
                    right; reflexivity]).
    destruct Hbf as (Hp & Hon & Htf & Hmax & Hstop & Hdone & Hgo & Hclk & _ & Hdef & Hq).
    split.
    { eapply engine_kept_trans; [|exact Hde].
      unfold engine_kept. rewrite Hp, Htf, Hmax, Hstop, Hdone, Hgo, Hclk, Hdef.
      repeat split. }
    split.
    { intros x Hx. destruct (Hdi x Hx) as [Hxq Hxo]. rewrite Hxq, Hxo, Hq, Hon.
      cbn. rewrite elem_of_union, elem_of_singleton. tauto. }
    split; [intros x Hx; apply Hdq in Hx; rewrite Hq in Hx; exact Hx|].
    split.
    { intros x Hx. destruct (decide (x = id)) as [->|Hne].
      - exfalso. revert Hx.
        exact (proj1 (ExecuteJob_deferred_spec id (fst (fst r)) (snd r))).
      - apply (Hdi x Hne) in Hx. rewrite Hon in Hx. cbn in Hx.
        rewrite elem_of_union, elem_of_singleton in Hx. tauto. }
    split; [|congruence].
    intros je0 Hje0. assert (je0 = je) as -> by congruence.
    eapply own_record_only_trans; [exact Hro|].
    eapply own_record_only_trans; [exact Hbo|exact Hdo].
Qed.

Lemma keyed_by_ID_own_record key w w' :
  own_record_only key w w' -> keyed_by_ID (db w) -> keyed_by_ID (db w').
Proof.
  intros [Hother Hown] Hkey k je' Hk. destruct (decide (k = key)) as [->|Hne].
  - destruct (Hown je' Hk) as [H|H]; [exact (Hkey _ _ H)|exact H].
  - rewrite (Hother k Hne) in Hk. exact (Hkey _ _ Hk).
Qed.

(** X12 (job.go, ExecuteJob): a run of [ExecuteJob] for an id, however it
    ends and whatever the store does, writes no record but the one stored
    under that id, changes no definition and no registered function, starts
    no goroutine and takes or frees no worker slot; it takes no id but its
    own out of the queue and out of the ongoing set and adds none to either;
    and a store that keeps every execution under its own id still does so
    afterwards. *)
Theorem ExecuteJob_touches_own_execution_only ctx id w :
  keyed_by_ID (db w) ->
  let w' := snd (ExecuteJob ctx id w) in
  other_records_kept id w w' /\ keyed_by_ID (db w') /\
  engine_kept w w' /\ other_ids_kept id w w' /\
  queue (db w') ⊆ queue (db w) /\ ongoingJobs w' ⊆ ongoingJobs w.
Proof.
  intros Hkey. cbn zeta.
  destruct (ExecuteJob_frame ctx id w) as (He & Hi & Hq & Hg & Hown & Hnone).
  cbn zeta in *.
  destruct (job_executions (db w) !! id) as [je|] eqn:Hje.
  - specialize (Hown je eq_refl). rewrite (Hkey id je Hje) in Hown.
    split; [exact (proj1 Hown)|].
    split; [exact (keyed_by_ID_own_record _ _ _ Hown Hkey)|]. auto.
  - specialize (Hnone eq_refl).
    split; [intros k _; rewrite Hnone; reflexivity|].
    split; [rewrite Hnone; exact Hkey|]. auto.
Qed.

End Properties.

(** * The properties on the concrete runs *)

Import Scenario.



(** The two-task definition of the scenario: [task1] succeeds, [task2]
    fails after its retry. *)
Lemma ExecuteJob_fail_fast_witness :
  (job_executions (db (dequeued "two-tasks")) !! first_id
   = Some (queued_record "two-tasks") /\
   Tasks two_tasks = [task1] ++ task2 :: [] /\
   faults (dequeued "two-tasks") = [] /\
   Forall (succeeds_in (dequeued "two-tasks")) [task1] /\
   taskFunctions (dequeued "two-tasks") !! Task_ID task2 = Some failing /\
   always_fails failing) /\
  exists last w' je' evs,
    ExecuteJob Background first_id (dequeued "two-tasks")
    = (Some ("task " +:+ Task_ID task2 +:+ " failed: "
             +:+ RetriesExhausted task2 last), w') /\
    job_executions (db w') !! first_id = Some je' /\
    Status je' = JobStatusFailed /\
    TaskStatuses je' !! Task_ID task2 = Some TaskStatusFailed /\
    (forall p, p ∈ [task1] -> Task_ID p <> Task_ID task2 ->
               TaskStatuses je' !! Task_ID p = Some TaskStatusCompleted) /\
    (forall k, k ∉ Task_ID <$> ([task1] ++ [task2]) ->
               TaskStatuses je' !! k
               = TaskStatuses (queued_record "two-tasks") !! k) /\
    trace w' = trace (dequeued "two-tasks") ++ evs /\
    evs = (EvInvoke <$> (Task_ID <$> [task1]))
          ++ retry_events (Task_ID task2) (Z.to_nat (MaxRetry task2)) 0 /\
    invocations evs
    = (Task_ID <$> [task1])
      ++ replicate (Z.to_nat (MaxRetry task2 + 1)) (Task_ID task2).
Proof.
  assert (job_executions (db (dequeued "two-tasks")) !! first_id
          = Some (queued_record "two-tasks")) as H1
    by (vm_compute; reflexivity).
  assert (Tasks two_tasks = [task1] ++ task2 :: []) as H2 by reflexivity.
  assert (faults (dequeued "two-tasks") = []) as H3 by (vm_compute; reflexivity).
  assert (Forall (succeeds_in (dequeued "two-tasks")) [task1]) as H4.
  { constructor; [|constructor]. split; [cbn; lia|].
    exists succeeding. split; [vm_compute; reflexivity|]. intros ? ? ?. reflexivity. }
  assert (taskFunctions (dequeued "two-tasks") !! Task_ID task2 = Some failing)
    as H5 by (vm_compute; reflexivity).
  assert (always_fails failing) as H6 by (intros ? ? ?; discriminate).
  split; [auto 10|].
  apply (ExecuteJob_fail_fast Background first_id (dequeued "two-tasks")
           (queued_record "two-tasks") two_tasks [task1] task2 [] failing).
  - exact H1.
  - reflexivity.
  - reflexivity.
  - vm_compute. reflexivity.
  - exact H2.
  - exact H3.
  - intros e. reflexivity.
  - exact H4.
  - exact H5.
  - exact H6.
  - cbn. lia.
Defined.

(** The concrete scenario of the specification, evaluated: the run ends
    FAILED with [task1] COMPLETED and [task2] FAILED in the store, after one
    call of [task1] and two calls of [task2] one second apart. *)
Example two_tasks_scenario :
  job_executions (db finished) !! first_id = Some failed_record /\
  trace finished
  = [EvInvoke "task1"; EvInvoke "task2"; EvSleep Second; EvInvoke "task2"] /\
  ongoingJobs finished = ∅ /\ queue (db finished) = ∅.
Proof. vm_compute. repeat split. Qed.

(** A second [ExecuteJob] on the execution that has ended FAILED. *)
Lemma ExecuteJob_terminal_noop_witness :
  (job_executions (db finished) !! first_id = Some failed_record /\
   head (faults finished) <> Some true /\
   (Status failed_record = JobStatusCompleted \/
    Status failed_record = JobStatusFailed)) /\
  ExecuteJob Background first_id finished
  = (None, set_faults (tail (faults finished)) finished) /\
  let w' := snd (ExecuteJob Background first_id finished) in
  db w' = db finished /\ ongoingJobs w' = ongoingJobs finished /\
  trace w' = trace finished /\ writes w' = writes finished /\
  ext w' = ext finished /\ goroutines w' = goroutines finished /\
  workerPool w' = workerPool finished.
Proof.
  assert (job_executions (db finished) !! first_id = Some failed_record) as H1
    by (vm_compute; reflexivity).
  assert (head (faults finished) <> Some true) as H2
    by (vm_compute; discriminate).
  assert (Status failed_record = JobStatusCompleted \/
          Status failed_record = JobStatusFailed) as H3 by (right; reflexivity).
  split; [auto|].
  exact (ExecuteJob_terminal_noop Background first_id finished failed_record
           H1 H2 H3).
Defined.

(** The run of the scenario leaves a cleaned-up state. *)
Lemma ExecuteJob_cleanup_after_running_witness :
  (job_executions (db (dequeued "two-tasks")) !! first_id
   = Some (queued_record "two-tasks") /\
   terminal (Status (queued_record "two-tasks")) = false /\
   job_definitions (db (dequeued "two-tasks"))
     !! DefinitionID (queued_record "two-tasks") = Some two_tasks /\
   no_fault_in 3 (dequeued "two-tasks")) /\
  cleaned_up first_id
    (snd (ExecuteJob Background first_id (dequeued "two-tasks"))).
Proof.
  assert (job_executions (db (dequeued "two-tasks")) !! first_id
          = Some (queued_record "two-tasks")) as H1
    by (vm_compute; reflexivity).
  assert (terminal (Status (queued_record "two-tasks")) = false) as H2
    by reflexivity.
  assert (job_definitions (db (dequeued "two-tasks"))
            !! DefinitionID (queued_record "two-tasks") = Some two_tasks) as H3
    by (vm_compute; reflexivity).
  assert (no_fault_in 3 (dequeued "two-tasks")) as H4
    by (vm_compute; constructor).
  split; [auto|].
  destruct (ExecuteJob_cleanup_after_running Background first_id
              (dequeued "two-tasks") (queued_record "two-tasks") two_tasks
              H1 H2 H3 H4) as (_ & _ & _ & _ & Hclean).
  apply Hclean.
  - reflexivity.
  - vm_compute. discriminate.
  - vm_compute. discriminate.
Defined.

(** C4, as stated, fails on the exits taken before the deferred function is
    registered.  With no definition stored, [ExecuteJob] returns without
    stamping an end time; and when the RUNNING write of a recovered execution
    fails, the id that [recoverState] put in the ongoing set stays there. *)
Lemma ExecuteJob_early_exit_no_cleanup :
  ~ cleaned_up first_id
      (snd (ExecuteJob Background first_id (dequeued "missing"))) /\
  ~ cleaned_up "exec-1"
      (snd (ExecuteJob Background "exec-1" (snd (recoverState restarted_failing)))).
Proof.
  split.
  - intros (_ & _ & je & Hje & Hend).
    vm_compute in Hje. injection Hje as <-. apply Hend. reflexivity.
  - intros (Hog & _). apply Hog. vm_compute. reflexivity.
Qed.



(** One turn of the queue loop of a fresh orchestrator. *)
Lemma processQueue_waits_on_empty_queue_witness :
  (stop fresh = false /\ queue (db fresh) = ∅ /\
   head (faults fresh) <> Some true) /\
  DequeueJob fresh = (Err errQueueEmpty, set_faults (tail (faults fresh)) fresh) /\
  processQueue_iteration fresh
  = (LoopContinue,
     set_trace (trace fresh ++ [EvSleep Second])
       (set_faults (tail (faults fresh)) fresh)).
Proof.
  assert (stop fresh = false) as H1 by reflexivity.
  assert (queue (db fresh) = ∅) as H2 by reflexivity.
  assert (head (faults fresh) <> Some true) as H3 by discriminate.
  split; [auto|].
  destruct (processQueue_waits_on_empty_queue fresh H1 H2 H3)
    as (Hdq & _ & Hit & _).
  split; [exact Hdq|exact Hit].
Defined.

(** Recovery on the database a crash left behind. *)
Lemma recoverState_restarts_from_first_task_witness :
  (job_executions (db restarted) !! "exec-1" = Some (interrupted "exec-1") /\
   Status (interrupted "exec-1") = JobStatusRunning /\
   head (faults restarted) <> Some true) /\
  (exists w',
     recoverState restarted = (None, w') /\
     "exec-1" ∈ ongoingJobs w' /\
     {| g_executionID := "exec-1"; g_releases := false |} ∈ goroutines w' /\
     db w' = db restarted) /\
  (let v0 := with_execution "exec-1" (as_enqueued (interrupted "exec-1"))
               restarted in
   fst (ExecuteJob Background "exec-1" restarted)
   = fst (ExecuteJob Background "exec-1" v0) /\
   same_but_executions (snd (ExecuteJob Background "exec-1" restarted))
                       (snd (ExecuteJob Background "exec-1" v0))).
Proof.
  assert (job_executions (db restarted) !! "exec-1"
          = Some (interrupted "exec-1")) as H1 by (vm_compute; reflexivity).
  assert (Status (interrupted "exec-1") = JobStatusRunning) as H2 by reflexivity.
  assert (head (faults restarted) <> Some true) as H3 by discriminate.
  split; [auto|].
  destruct (recoverState_restarts_from_first_task restarted "exec-1"
              (interrupted "exec-1") H1 H2 eq_refl H3) as (Ha & _ & Hc & _).
  split; [exact Ha|]. exact (Hc Background restarted H1).
Defined.

(** The recovered execution, evaluated: [task1], recorded COMPLETED before
    the crash, is called again, then [task2]. *)
Example recovered_run :
  trace (snd (ExecuteJob Background "exec-1" restarted))
  = [EvInvoke "task1"; EvInvoke "task2"; EvSleep Second; EvInvoke "task2"].
Proof. vm_compute. reflexivity. Qed.

(** The first run of the scenario's execution. *)
Lemma ExecuteJob_task_status_monotone_witness :
  (job_executions (db (dequeued "two-tasks")) !! first_id
   = Some (queued_record "two-tasks") /\
   (forall jd,
      job_definitions (db (dequeued "two-tasks"))
        !! DefinitionID (queued_record "two-tasks") = Some jd ->
      NoDup (Task_ID <$> Tasks jd) /\
      none_finished (Tasks jd) (TaskStatuses (queued_record "two-tasks")))) /\
  exists new,
    writes (snd (ExecuteJob Background first_id (dequeued "two-tasks")))
    = writes (dequeued "two-tasks") ++ new /\
    Forall (fun x => ID x = ID (queued_record "two-tasks")) new /\
    monotone_history (TaskStatuses (queued_record "two-tasks")
                      :: (TaskStatuses <$> new)).
Proof.
  assert (job_executions (db (dequeued "two-tasks")) !! first_id
          = Some (queued_record "two-tasks")) as H1
    by (vm_compute; reflexivity).
  assert (forall jd,
            job_definitions (db (dequeued "two-tasks"))
              !! DefinitionID (queued_record "two-tasks") = Some jd ->
            NoDup (Task_ID <$> Tasks jd) /\
            none_finished (Tasks jd) (TaskStatuses (queued_record "two-tasks")))
    as H2.
  { intros jd Hjd. vm_compute in Hjd. injection Hjd as <-. split.
    - apply (bool_decide_unpack _). vm_compute. exact I.
    - intros t _. unfold status_at. cbn [TaskStatuses queued_record].
      rewrite lookup_empty. cbn. lia. }
  split; [auto|].
  exact (ExecuteJob_task_status_monotone Background first_id
           (dequeued "two-tasks") (queued_record "two-tasks") H1 H2).
Defined.

(** C8, as stated, fails across a recovery restart: the execution a crash
    left with [task1] COMPLETED has [task1] persisted as RUNNING again by
    the restarted run. *)
Lemma recovery_resets_completed_task :
  ~ monotone_history
      (TaskStatuses (interrupted "exec-1")
       :: (TaskStatuses <$> writes (snd (ExecuteJob Background "exec-1" restarted)))).
Proof.
  unfold monotone_history. intros H.
  apply StronglySorted_inv in H as [_ Hall].
  eapply (Forall_lookup_1 _ _ 1) in Hall; [|vm_compute; reflexivity].
  specialize (Hall "task1"). vm_compute in Hall.
  destruct Hall as [Heq|Hlt]; [discriminate Heq|].
  repeat (apply le_S_n in Hlt). inversion Hlt.
Qed.

(** C9, evaluated where the code departs from it: on a database with two
    executions left RUNNING, [New] with one worker slot returns an
    orchestrator whose ongoing set holds both executions, with no unit of
    the worker pool taken and a goroutine started for each. *)
Theorem recoverState_exceeds_maxConcurrent :
  match New crashed_db 1 tt now [] with
  | Ok w =>
      ongoingJobs w = {[ "exec-1"; "exec-2" ]} /\
      size (ongoingJobs w) = 2%nat /\
      maxConcurrent w = 1%nat /\
      workerPool w = 0%nat /\
      goroutines w = [ {| g_executionID := "exec-1"; g_releases := false |};
                       {| g_executionID := "exec-2"; g_releases := false |} ]
  | Err _ => False
  end.
Proof. vm_compute. repeat split. Qed.

(** An execution enqueued for a definition that was never registered. *)
Lemma EnqueueJob_unchecked_definition_witness :
  no_fault_in 2 fresh /\
  (exists w',
     EnqueueJob "missing" tt fresh = (Ok first_id, w') /\
     job_executions (db w') !! first_id = Some (queued_record "missing") /\
     first_id ∈ queue (db w') /\
     job_definitions (db w') = job_definitions (db fresh)) /\
  (exists w3,
     ExecuteJob Background first_id (dequeued "missing")
     = (Some "failed to get job definition: job definition not found", w3) /\
     db w3 = db (dequeued "missing") /\
     job_executions (db w3) !! first_id = Some (queued_record "missing")).
Proof.
  assert (no_fault_in 2 fresh) as H1 by constructor.
  split; [exact H1|].
  destruct (EnqueueJob_unchecked_definition "missing" tt fresh H1) as (Ha & Hb).
  split; [exact Ha|].
  destruct (Hb Background (dequeued "missing") (queued_record "missing"))
    as (w3 & Hrun & Hdb & Hje & _).
  - vm_compute. reflexivity.
  - reflexivity.
  - reflexivity.
  - vm_compute. reflexivity.
  - vm_compute. constructor.
  - exists w3. auto.
Defined.
